(** * Pailide: a retro instant-camera photo booth

    A shallow embedding of the capture pipeline ([takePhoto] and its crop
    computation), of the photo lifecycle handlers of [App.tsx]
    ([handlePhotoUpdate], [handlePhotoDelete], [handleDragRelease],
    [updateCaption]), of the develop timer of [PhotoCard.tsx] and of the
    caption adapter [generatePhotoCaption], with the properties the
    specification states about them.

    Conventions.
    - A JavaScript [number] is a rational ([Q]).  The crop is given twice:
      [cropRegion64] rounds every operation to binary64 ([round64]), as the
      code does, and [cropRegion] is the same computation in exact
      arithmetic.  The one division whose divisor can be zero
      ([videoWidth / videoHeight]) goes through [number_div], which keeps
      JavaScript's [Infinity] and [NaN].
    - React state is a record; a handler is a function from the rendered state
      to the next state.  [setX(v)] and [setX(prev => f prev)] become record
      updates.  [handlePhotoUpdate], [handlePhotoDelete] and
      [handleDragRelease] are the calls made from the render of the state
      they are applied to; the [_from] variants take the [stagedPhoto] of an
      earlier render, for a call that comes before [App] has rendered
      again.
    - An [async] function is cut at its [await]: the part before it is one
      transition, the continuation another.
    - A card keeps its own [useState] cells ([Card.State]); its handlers
      return the next cells and the call made on the handlers of [App].
    - The 2D context is its transformation matrix; [drawImage] takes the
      source rectangle linearly onto the destination rectangle. *)

From Stdlib Require Import Bool List String Ascii ZArith NArith QArith Lia.
From Stdlib Require Import Lqa Permutation Qround Qpower.
From Stdlib Require PrimFloat FloatOps SpecFloat Uint63.
Import ListNotations.

Local Open Scope string_scope.

(** ** types.ts *)

Record Position := { x : Q; y : Q }.

Record PhotoData := {
  id : string;
  imageData : string;
  caption : string;
  dateString : string;
  timestamp : Q;
  isDeveloping : bool;
  isStaged : bool;
  position : Position;
  rotation : Q
}.

Inductive AppStatus := IDLE | CAMERA_READY | TAKING_PHOTO | ERROR.

Definition AppStatus_eqb (a b : AppStatus) : bool :=
  match a, b with
  | IDLE, IDLE | CAMERA_READY, CAMERA_READY
  | TAKING_PHOTO, TAKING_PHOTO | ERROR, ERROR => true
  | _, _ => false
  end.

(** ** JavaScript numbers

    The results a division can produce besides a finite value. *)

Inductive number := Finite (q : Q) | Infinity | NegInfinity | NaN.

(** [a / b] on finite operands; the divisor is [+0] when it is zero. *)
Definition number_div (a b : Q) : number :=
  if Qeq_bool b 0 then
    if Qeq_bool a 0 then NaN
    else if Qle_bool 0 a then Infinity else NegInfinity
  else Finite (a / b).

(** [a > b] with a finite right operand; any comparison with [NaN] is false. *)
Definition number_gt (a : number) (b : Q) : bool :=
  match a with
  | Finite q => negb (Qle_bool q b)
  | Infinity => true
  | NegInfinity | NaN => false
  end.

(** ** Binary64 rounding

    The result of a JavaScript arithmetic operation is the exact result
    rounded to the nearest binary64 number, ties to even.  [round64] is that
    rounding on rationals, for results within the normal range (no overflow,
    no subnormal numbers): the frame sizes of a video element are far inside
    it. *)

(** The binary exponent of a positive rational: [2 ^ ilog2 q <= q <
    2 ^ (ilog2 q + 1)]. *)
Definition ilog2 (q : Q) : Z :=
  let c := (Z.log2 (Qnum q) - Z.log2 (Zpos (Qden q)))%Z in
  if Qle_bool (2 ^ c) q then c else (c - 1)%Z.

(** The nearest integer, ties to even. *)
Definition rne (x : Q) : Z :=
  let k := Qfloor x in
  match Qcompare (x - inject_Z k) (1 # 2) with
  | Lt => k
  | Gt => (k + 1)%Z
  | Eq => if Z.even k then k else (k + 1)%Z
  end.

(** A positive rational, scaled to a significand of 53 bits, rounded and
    scaled back. *)
Definition round64_pos (q : Q) : Q :=
  let e := (ilog2 q - 52)%Z in
  inject_Z (rne (q * 2 ^ (- e))) * 2 ^ e.

Definition round64 (q : Q) : Q :=
  match Qcompare q 0 with
  | Eq => 0
  | Gt => round64_pos q
  | Lt => - round64_pos (- q)
  end.

(** The largest relative error of a rounding, [2 ^ -53]. *)
Definition eps64 : Q := 1 # 9007199254740992.

(** A binary64 number: a significand of at most 53 bits times a power of
    two. *)
Definition representable64 (q : Q) : Prop :=
  exists m e : Z, (Z.abs m <= 2 ^ 53)%Z /\ q == inject_Z m * 2 ^ e.

(** [a / b] in binary64. *)
Definition number_div64 (a b : Q) : number :=
  match number_div a b with
  | Finite q => Finite (round64 q)
  | other => other
  end.

(** ** The crop computation of [takePhoto] (App.tsx, lines 75-98)

    First in exact arithmetic, then as the code runs it, in binary64. *)

(** [videoWidth] and [videoHeight] of an [HTMLVideoElement] are unsigned
    integers ([unsigned long], below [2 ^ 32]). *)
Record Video := { videoWidth : N; videoHeight : N }.

(** Such an integer as a number; it is a binary64 number as it stands. *)
Definition num (n : N) : Q := inject_Z (Z.of_N n).

Record CropRegion := {
  sourceX : Q;
  sourceY : Q;
  sourceWidth : Q;
  sourceHeight : Q
}.

Definition targetWidth : Q := 600.
Definition targetHeight : Q := 800.
Definition targetRatio : Q := targetWidth / targetHeight.

Definition videoRatio (video : Video) : number :=
  number_div (num (videoWidth video)) (num (videoHeight video)).

Definition cropRegion (video : Video) : CropRegion :=
  if number_gt (videoRatio video) targetRatio then
    let sourceHeight := num (videoHeight video) in
    let sourceWidth := sourceHeight * targetRatio in
    {| sourceX := (num (videoWidth video) - sourceWidth) / 2;
       sourceY := 0;
       sourceWidth := sourceWidth;
       sourceHeight := sourceHeight |}
  else
    let sourceWidth := num (videoWidth video) in
    let sourceHeight := sourceWidth / targetRatio in
    {| sourceX := 0;
       sourceY := (num (videoHeight video) - sourceHeight) / 2;
       sourceWidth := sourceWidth;
       sourceHeight := sourceHeight |}.

(** The same computation as the code runs it, every operation rounded to
    binary64.  [cropRegion] above is its reading in exact arithmetic. *)
Definition targetRatio64 : Q := round64 (targetWidth / targetHeight).

Definition videoRatio64 (video : Video) : number :=
  number_div64 (num (videoWidth video)) (num (videoHeight video)).

Definition cropRegion64 (video : Video) : CropRegion :=
  if number_gt (videoRatio64 video) targetRatio64 then
    let sourceHeight := num (videoHeight video) in
    let sourceWidth := round64 (sourceHeight * targetRatio64) in
    {| sourceX := round64 (round64 (num (videoWidth video) - sourceWidth) / 2);
       sourceY := 0;
       sourceWidth := sourceWidth;
       sourceHeight := sourceHeight |}
  else
    let sourceWidth := num (videoWidth video) in
    let sourceHeight := round64 (sourceWidth / targetRatio64) in
    {| sourceX := 0;
       sourceY :=
         round64 (round64 (num (videoHeight video) - sourceHeight) / 2);
       sourceWidth := sourceWidth;
       sourceHeight := sourceHeight |}.

(** The computation once more on the machine's own binary64 numbers, to
    compare [round64] with. *)
Module Machine64.

Definition of_N (n : N) : PrimFloat.float :=
  PrimFloat.of_uint63 (Uint63.of_Z (Z.of_N n)).

(** The exact value of a finite float. *)
Definition to_Q (x : PrimFloat.float) : option Q :=
  match FloatOps.Prim2SF x with
  | SpecFloat.S754_zero _ => Some 0
  | SpecFloat.S754_finite sign m e =>
      Some ((if sign then - (1) else 1) * inject_Z (Zpos m) * 2 ^ e)
  | _ => None
  end.

Record Crop := {
  sourceX : PrimFloat.float;
  sourceY : PrimFloat.float;
  sourceWidth : PrimFloat.float;
  sourceHeight : PrimFloat.float
}.

Definition cropRegion (videoWidth videoHeight : N) : Crop :=
  let targetWidth := of_N 600 in
  let targetHeight := of_N 800 in
  let videoRatio := PrimFloat.div (of_N videoWidth) (of_N videoHeight) in
  let targetRatio := PrimFloat.div targetWidth targetHeight in
  if PrimFloat.ltb targetRatio videoRatio then
    let sourceHeight := of_N videoHeight in
    let sourceWidth := PrimFloat.mul sourceHeight targetRatio in
    {| sourceX :=
         PrimFloat.div (PrimFloat.sub (of_N videoWidth) sourceWidth) (of_N 2);
       sourceY := of_N 0;
       sourceWidth := sourceWidth;
       sourceHeight := sourceHeight |}
  else
    let sourceWidth := of_N videoWidth in
    let sourceHeight := PrimFloat.div sourceWidth targetRatio in
    {| sourceX := of_N 0;
       sourceY :=
         PrimFloat.div (PrimFloat.sub (of_N videoHeight) sourceHeight)
           (of_N 2);
       sourceWidth := sourceWidth;
       sourceHeight := sourceHeight |}.

Definition same (x : PrimFloat.float) (q : Q) : bool :=
  match to_Q x with
  | Some v => Qeq_bool v q
  | None => false
  end.

End Machine64.

(** Whether the machine's crop of a frame is the one of [cropRegion64]. *)
Definition machine_agrees (frame : N * N) : bool :=
  let m := Machine64.cropRegion (fst frame) (snd frame) in
  let c := cropRegion64 {| videoWidth := fst frame;
                           videoHeight := snd frame |} in
  Machine64.same (Machine64.sourceX m) (sourceX c)
  && Machine64.same (Machine64.sourceY m) (sourceY c)
  && Machine64.same (Machine64.sourceWidth m) (sourceWidth c)
  && Machine64.same (Machine64.sourceHeight m) (sourceHeight c).

(** ** services/geminiService.ts *)

Module GeminiService.

(** The outcome of a call that may raise: a value, or a thrown error. *)
Inductive result (A : Type) :=
| Ok (a : A)
| Throw (error : string).
Arguments Ok {A} a.
Arguments Throw {A} error.

Definition bind {A B} (r : result A) (k : A -> result B) : result B :=
  match r with
  | Ok a => k a
  | Throw e => Throw e
  end.

(** [try { body } catch (error) { handler error }] *)
Definition try_catch {A} (body : result A) (handler : string -> result A)
  : result A :=
  match body with
  | Ok a => Ok a
  | Throw e => handler e
  end.

Notation "x <- c ;; k" := (bind c (fun x => k))
  (at level 61, c at next level, right associativity).

(** [a || b] on a possibly undefined string: [undefined] and the empty
    string are falsy. *)
Definition or_else (a : option string) (b : string) : string :=
  match a with
  | Some s => if String.eqb s "" then b else s
  | None => b
  end.

Fixpoint strip_prefix (p s : string) : option string :=
  match p, s with
  | EmptyString, _ => Some s
  | String a p', String b s' =>
      if Ascii.eqb a b then strip_prefix p' s' else None
  | String _ _, EmptyString => None
  end.

(** The strings matched by
    [/^data:image\/(png|jpg|jpeg|webp);base64,/]. *)
Definition headers : list string :=
  [ "data:image/png;base64,"; "data:image/jpg;base64,";
    "data:image/jpeg;base64,"; "data:image/webp;base64," ].

Fixpoint replace_header (hs : list string) (s : string) : string :=
  match hs with
  | [] => s
  | h :: hs' =>
      match strip_prefix h s with
      | Some rest => rest
      | None => replace_header hs' s
      end
  end.

Record InlineData := { mimeType : string; data : string }.

Record GenerateContentParameters := {
  model : string;
  inlineData : InlineData;
  text : string
}.

(** [response.text] is [undefined] when the response carries no text. *)
Record GenerateContentResponse := { response_text : option string }.

Definition prompt (language : string) : string :=
  "
      You are a warm, nostalgic, and friendly AI inside a retro instant camera.
      Analyze this photo and write a SHORT, warm blessing or a nice, aesthetic comment about the moment captured.
      Use the language code: " ++ language ++ ".
      Keep it under 15 words.
      Do not use hashtags.
      Do not use quotes.
      Just the handwritten-style note.
    ".

Section Adapter.

(** [ai.models.generateContent], the caption service. *)
Variable generateContent :
  GenerateContentParameters -> result GenerateContentResponse.

(** [navigator.language] *)
Variable navigator_language : option string.

Definition request (base64Image : string) : GenerateContentParameters :=
  let cleanBase64 := replace_header headers base64Image in
  let language := or_else navigator_language "en-US" in
  {| model := "gemini-2.5-flash";
     inlineData := {| mimeType := "image/png"; data := cleanBase64 |};
     text := prompt language |}.

Definition generatePhotoCaption (base64Image : string) : result string :=
  try_catch
    (response <- generateContent (request base64Image) ;;
     Ok (or_else (response_text response) "A beautiful moment..."))
    (fun error => Ok "Captured in time.").

End Adapter.

(** A failed call: the service raised, or its response has no text. *)
Definition failed (outcome : result GenerateContentResponse) : Prop :=
  match outcome with
  | Throw _ => True
  | Ok response =>
      response_text response = None \/ response_text response = Some ""
  end.

(** Sample services: one that raises, one that answers without text. *)
Definition unreachable_service
  : GenerateContentParameters -> result GenerateContentResponse :=
  fun _ => Throw "Failed to fetch".

Definition silent_service
  : GenerateContentParameters -> result GenerateContentResponse :=
  fun _ => Ok {| response_text := None |}.

Definition warm_service
  : GenerateContentParameters -> result GenerateContentResponse :=
  fun _ => Ok {| response_text := Some "Golden hour smiles" |}.

End GeminiService.

(** ** App.tsx *)

(** [Partial<PhotoData>]: every field is absent or carries a value (a field
    present with the value [undefined] is not modelled). *)
Module Partial.
Record t := {
  id : option string;
  imageData : option string;
  caption : option string;
  dateString : option string;
  timestamp : option Q;
  isDeveloping : option bool;
  isStaged : option bool;
  position : option Position;
  rotation : option Q
}.

End Partial.

Definition override {A} (field : A) (update : option A) : A :=
  match update with
  | Some v => v
  | None => field
  end.

(** [{ ...photo, ...updates }] *)
Definition spread (photo : PhotoData) (updates : Partial.t) : PhotoData :=
  {| id := override (id photo) (Partial.id updates);
     imageData := override (imageData photo) (Partial.imageData updates);
     caption := override (caption photo) (Partial.caption updates);
     dateString := override (dateString photo) (Partial.dateString updates);
     timestamp := override (timestamp photo) (Partial.timestamp updates);
     isDeveloping :=
       override (isDeveloping photo) (Partial.isDeveloping updates);
     isStaged := override (isStaged photo) (Partial.isStaged updates);
     position := override (position photo) (Partial.position updates);
     rotation := override (rotation photo) (Partial.rotation updates) |}.

(** [{ ...photo, caption: text }] *)
Definition with_caption (photo : PhotoData) (text : string) : PhotoData :=
  {| id := id photo;
     imageData := imageData photo;
     caption := text;
     dateString := dateString photo;
     timestamp := timestamp photo;
     isDeveloping := isDeveloping photo;
     isStaged := isStaged photo;
     position := position photo;
     rotation := rotation photo |}.

(** The React state of [App] that the handlers read and write. *)
Record AppState := {
  status : AppStatus;
  photos : list PhotoData;
  stagedPhoto : option PhotoData
}.

Definition initialState : AppState :=
  {| status := IDLE; photos := []; stagedPhoto := None |}.

Definition setStatus (v : AppStatus) (s : AppState) : AppState :=
  {| status := v; photos := photos s; stagedPhoto := stagedPhoto s |}.

Definition setPhotos (f : list PhotoData -> list PhotoData) (s : AppState)
  : AppState :=
  {| status := status s; photos := f (photos s);
     stagedPhoto := stagedPhoto s |}.

Definition setStagedPhoto (f : option PhotoData -> option PhotoData)
  (s : AppState) : AppState :=
  {| status := status s; photos := photos s;
     stagedPhoto := f (stagedPhoto s) |}.

(** [startCamera]: the outcome of [getUserMedia] decides the status. *)
Definition startCamera (granted : bool) (s : AppState) : AppState :=
  if granted then setStatus CAMERA_READY s else setStatus ERROR s.

(** The hidden canvas: whether [getContext('2d')] yields a context, and the
    data URL of the frame drawn (mirrored) from a given crop region. *)
Record Canvas := {
  getContext : bool;
  toDataURL : CropRegion -> string
}.

(** What [takePhoto] reads from its surroundings: the two refs, the id
    drawn by [generateId()] (two random strings, with no check against the
    ids in use), the clock, the formatted date and [Math.random()]. *)
Record CaptureEnv := {
  videoRef : option Video;
  canvasRef : option Canvas;
  generateId : string;
  dateNow : Q;
  toLocaleDateString : string;
  mathRandom : Q
}.

Definition newPhoto (env : CaptureEnv) (imageData : string) : PhotoData :=
  {| id := generateId env;
     imageData := imageData;
     caption := "";
     timestamp := dateNow env;
     dateString := toLocaleDateString env;
     isDeveloping := true;
     isStaged := true;
     position := {| x := 0; y := 0 |};
     rotation := mathRandom env * 6 - 3 |}.

Definition isSome {A} (o : option A) : bool :=
  match o with
  | Some _ => true
  | None => false
  end.

(** [takePhoto] up to its [await]. *)
Definition takePhoto (env : CaptureEnv) (s : AppState) : AppState :=
  if negb (AppStatus_eqb (status s) CAMERA_READY) || isSome (stagedPhoto s)
  then s
  else
    let s := setStatus TAKING_PHOTO s in
    match videoRef env, canvasRef env with
    | Some video, Some canvas =>
        if getContext canvas then
          let imageData := toDataURL canvas (cropRegion64 video) in
          let s := setStagedPhoto (fun _ => Some (newPhoto env imageData)) s in
          setStatus CAMERA_READY s
        else s
    | _, _ => s
    end.

(** [updateCaption], the continuation of [takePhoto] after the caption
    resolved. *)
Definition updateCaption (pid text : string) (s : AppState) : AppState :=
  let s :=
    setStagedPhoto
      (fun prev =>
         match prev with
         | Some p =>
             if String.eqb (id p) pid
             then Some (with_caption p text)
             else prev
         | None => prev
         end) s in
  setPhotos
    (map (fun p =>
            if String.eqb (id p) pid
            then with_caption p text
            else p)) s.

(** [takePhoto] after [await generatePhotoCaption(imageData)]: the caption
    is patched in; an exception would be logged and the state left alone. *)
Definition takePhoto_resume (newId : string)
  (outcome : GeminiService.result string) (s : AppState) : AppState :=
  match outcome with
  | GeminiService.Ok caption => updateCaption newId caption s
  | GeminiService.Throw e => s
  end.

(** [handlePhotoUpdate], [handlePhotoDelete] and [handleDragRelease] as
    called from the render of [s]: the [stagedPhoto] of their closure is the
    one of [s]. *)
Definition handlePhotoUpdate (i : string) (updates : Partial.t) (s : AppState)
  : AppState :=
  let s' :=
    match stagedPhoto s with
    | Some staged =>
        if String.eqb (id staged) i
        then setStagedPhoto (fun _ => Some (spread staged updates)) s
        else s
    | None => s
    end in
  setPhotos
    (map (fun p => if String.eqb (id p) i then spread p updates else p)) s'.

Definition handlePhotoDelete (i : string) (s : AppState) : AppState :=
  match stagedPhoto s with
  | Some staged =>
      if String.eqb (id staged) i
      then setStagedPhoto (fun _ => None) s
      else setPhotos (filter (fun p => negb (String.eqb (id p) i))) s
  | None => setPhotos (filter (fun p => negb (String.eqb (id p) i))) s
  end.

Definition handleDragRelease (i : string) (point : Position) (s : AppState)
  : AppState :=
  match stagedPhoto s with
  | Some staged =>
      if String.eqb (id staged) i then
        let unstaged :=
          {| id := id staged;
             imageData := imageData staged;
             caption := caption staged;
             dateString := dateString staged;
             timestamp := timestamp staged;
             isDeveloping := isDeveloping staged;
             isStaged := false;
             position := point;
             rotation := rotation staged |} in
        let s := setPhotos (fun prev => (prev ++ [unstaged])%list) s in
        setStagedPhoto (fun _ => None) s
      else s
  | None => s
  end.

(** *** The handlers with their closure made explicit

    [handlePhotoUpdate], [handlePhotoDelete] and [handleDragRelease] above
    are the calls made from the render of the state they are applied to.  A
    call can also come from an earlier render: the handler then reads the
    [stagedPhoto] it captured at that render, and [setStagedPhoto(value)]
    writes over whatever was queued since, while [setPhotos(prev => ...)]
    applies to the current collection.  [rendered] is the captured
    [stagedPhoto], [s] the state the call finds. *)

Definition handlePhotoUpdate_from (rendered : option PhotoData) (i : string)
  (updates : Partial.t) (s : AppState) : AppState :=
  let s' :=
    match rendered with
    | Some staged =>
        if String.eqb (id staged) i
        then setStagedPhoto (fun _ => Some (spread staged updates)) s
        else s
    | None => s
    end in
  setPhotos
    (map (fun p => if String.eqb (id p) i then spread p updates else p)) s'.

Definition handlePhotoDelete_from (rendered : option PhotoData) (i : string)
  (s : AppState) : AppState :=
  match rendered with
  | Some staged =>
      if String.eqb (id staged) i
      then setStagedPhoto (fun _ => None) s
      else setPhotos (filter (fun p => negb (String.eqb (id p) i))) s
  | None => setPhotos (filter (fun p => negb (String.eqb (id p) i))) s
  end.

Definition handleDragRelease_from (rendered : option PhotoData) (i : string)
  (point : Position) (s : AppState) : AppState :=
  match rendered with
  | Some staged =>
      if String.eqb (id staged) i then
        let unstaged :=
          {| id := id staged;
             imageData := imageData staged;
             caption := caption staged;
             dateString := dateString staged;
             timestamp := timestamp staged;
             isDeveloping := isDeveloping staged;
             isStaged := false;
             position := point;
             rotation := rotation staged |} in
        let s := setPhotos (fun prev => (prev ++ [unstaged])%list) s in
        setStagedPhoto (fun _ => None) s
      else s
  | None => s
  end.

(** ** components/PhotoCard.tsx *)

(** A call a card makes on the handlers it received as props. *)
Inductive Call :=
| onUpdate (i : string) (updates : Partial.t)
| onDelete (i : string)
| onDragRelease (i : string) (point : Position).

Module PhotoCard.

(** [{ isDeveloping: false }] *)
Definition developed : Partial.t :=
  {| Partial.id := None; Partial.imageData := None;
     Partial.caption := None; Partial.dateString := None;
     Partial.timestamp := None; Partial.isDeveloping := Some false;
     Partial.isStaged := None; Partial.position := None;
     Partial.rotation := None |}.

(** [{ caption: text }] *)
Definition captioned (text : string) : Partial.t :=
  {| Partial.id := None; Partial.imageData := None;
     Partial.caption := Some text; Partial.dateString := None;
     Partial.timestamp := None; Partial.isDeveloping := None;
     Partial.isStaged := None; Partial.position := None;
     Partial.rotation := None |}.

(** Delay of the develop timer, in milliseconds. *)
Definition developingTime : Z := 3500.

(** The develop effect: a timer is armed only for a developing photo; when
    it fires the card makes this call. *)
Definition developTimer (photo : PhotoData) : option Call :=
  if isDeveloping photo
  then Some (onUpdate (id photo) developed)
  else None.

(** [handleRegenerateCaption] after its [await], and [saveEdit]. *)
Definition handleRegenerateCaption (photo : PhotoData) (newCaption : string)
  : Call :=
  onUpdate (id photo) (captioned newCaption).

Definition saveEdit (photo : PhotoData) (editText : string) : Call :=
  onUpdate (id photo) (captioned editText).

(** [handleDragEnd]: [hasDragRelease] tells whether the [onDragRelease]
    prop was given, [rect] is the card's bounding rectangle (left, top). *)
Definition handleDragEnd (photo : PhotoData) (hasDragRelease : bool)
  (rect : option Position) : option Call :=
  if isStaged photo && hasDragRelease then
    match rect with
    | Some r => Some (onDragRelease (id photo) {| x := x r; y := y r |})
    | None => None
    end
  else None.

End PhotoCard.

(** ** The session as a transition system

    One event after the other, [App] rendering in between: every handler is
    called from the render of the state it finds. *)

(** [App] passes [handlePhotoUpdate], [handlePhotoDelete] and
    [handleDragRelease] to its cards. *)
Definition dispatch (c : Call) (s : AppState) : AppState :=
  match c with
  | onUpdate i updates => handlePhotoUpdate i updates s
  | onDelete i => handlePhotoDelete i s
  | onDragRelease i point => handleDragRelease i point s
  end.

Inductive Event :=
| CameraStarted (granted : bool)
| Shutter (env : CaptureEnv)
| CaptionResolved (pid text : string)
| Card (c : Call).

Definition step (e : Event) (s : AppState) : AppState :=
  match e with
  | CameraStarted granted => startCamera granted s
  | Shutter env => takePhoto env s
  | CaptionResolved pid text => updateCaption pid text s
  | Card c => dispatch c s
  end.

Definition run (events : list Event) (s : AppState) : AppState :=
  fold_left (fun s e => step e s) events s.

(** States reachable from the initial one by events satisfying [allowed]. *)
Inductive reachable_by (allowed : Event -> Prop) : AppState -> Prop :=
| reachable_initial : reachable_by allowed initialState
| reachable_step e s :
    allowed e -> reachable_by allowed s -> reachable_by allowed (step e s).

Definition reachable : AppState -> Prop := reachable_by (fun _ => True).

(** The patches the cards really send: [{ isDeveloping: false }] and
    [{ caption: ... }]. *)
Definition issued (e : Event) : Prop :=
  match e with
  | Card (onUpdate _ updates) =>
      updates = PhotoCard.developed
      \/ exists text, updates = PhotoCard.captioned text
  | _ => True
  end.

(** The records of a state: the occupant of the staged slot, then the placed
    collection. *)
Definition slot (s : AppState) : list PhotoData :=
  match stagedPhoto s with
  | Some p => [p]
  | None => []
  end.

Definition records (s : AppState) : list PhotoData :=
  (slot s ++ photos s)%list.

(** Whether some record of the list carries the id. *)
Definition holds (i : string) (l : list PhotoData) : bool :=
  existsb (fun p => String.eqb (id p) i) l.

(** [p.id !== i] *)
Definition other (i : string) (p : PhotoData) : bool :=
  negb (String.eqb (id p) i).

(** The staged flags agree with the store: the occupant of the slot is
    flagged staged, no placed record is. *)
Definition flags_agree (s : AppState) : Prop :=
  (forall p, stagedPhoto s = Some p -> isStaged p = true)
  /\ Forall (fun p => isStaged p = false) (photos s).

(** ** The card's own state (PhotoCard.tsx, lines 25-45 and 65-98) *)

Module Card.

(** ['developing' | 'developed'] *)
Inductive VisualState := developing | developed.

(** The [useState] cells of a card.  They live from mount to unmount; a
    change of the [photo] prop does not reset them. *)
Record State := {
  isHovering : bool;
  isEditing : bool;
  editText : string;
  isRegenerating : bool;
  visualState : VisualState
}.

(** The initial values, taken from the photo the card is mounted with. *)
Definition mount (photo : PhotoData) : State :=
  {| isHovering := false;
     isEditing := false;
     editText := caption photo;
     isRegenerating := false;
     visualState := if isDeveloping photo then developing else developed |}.

Definition setIsHovering (v : bool) (st : State) : State :=
  {| isHovering := v; isEditing := isEditing st; editText := editText st;
     isRegenerating := isRegenerating st; visualState := visualState st |}.

Definition setIsEditing (v : bool) (st : State) : State :=
  {| isHovering := isHovering st; isEditing := v; editText := editText st;
     isRegenerating := isRegenerating st; visualState := visualState st |}.

Definition setEditText (v : string) (st : State) : State :=
  {| isHovering := isHovering st; isEditing := isEditing st; editText := v;
     isRegenerating := isRegenerating st; visualState := visualState st |}.

Definition setIsRegenerating (v : bool) (st : State) : State :=
  {| isHovering := isHovering st; isEditing := isEditing st;
     editText := editText st; isRegenerating := v;
     visualState := visualState st |}.

Definition setVisualState (v : VisualState) (st : State) : State :=
  {| isHovering := isHovering st; isEditing := isEditing st;
     editText := editText st; isRegenerating := isRegenerating st;
     visualState := v |}.

(** The callback of the develop timer, armed only for a developing photo. *)
Definition timer (photo : PhotoData) (st : State) : option (State * Call) :=
  if isDeveloping photo
  then Some (setVisualState developed st,
             onUpdate (id photo) PhotoCard.developed)
  else None.

Definition saveEdit (photo : PhotoData) (st : State) : State * Call :=
  (setIsEditing false st,
   onUpdate (id photo) (PhotoCard.captioned (editText st))).

Definition cancelEdit (photo : PhotoData) (st : State) : State :=
  setIsEditing false (setEditText (caption photo) st).

(** [onKeyDown] of the textarea: two [if]s in a row. *)
Definition onKeyDown (key : string) (photo : PhotoData) (st : State)
  : State * option Call :=
  let r :=
    if String.eqb key "Enter"
    then (fst (saveEdit photo st), Some (snd (saveEdit photo st)))
    else (st, None) in
  let st' :=
    if String.eqb key "Escape" then cancelEdit photo (fst r) else fst r in
  (st', snd r).

(** [handleRegenerateCaption] before and after its [await]. *)
Definition regenerate_start (st : State) : State :=
  setIsRegenerating true st.

Definition regenerate_resume (photo : PhotoData) (newCaption : string)
  (st : State) : State * Call :=
  (setIsRegenerating false (setEditText newCaption st),
   onUpdate (id photo) (PhotoCard.captioned newCaption)).

(** What is rendered: the hover toolbar (download, delete), the text icons
    (edit, regenerate), the caption line and the stacking order. *)
Definition toolbar (photo : PhotoData) (st : State) : bool :=
  negb (isStaged photo) && isHovering st && negb (isEditing st).

Definition textIcons (photo : PhotoData) (st : State) : bool :=
  negb (isEditing st) && negb (isStaged photo).

Definition captionLine (photo : PhotoData) (st : State) : string :=
  if String.eqb (caption photo) ""
  then if isRegenerating st then "Writing..." else "..."
  else caption photo.

Definition zIndex (photo : PhotoData) (st : State) : Z :=
  if isHovering st then 50 else if isStaged photo then 10 else 1.

(** A click on the delete button, when it is rendered. *)
Definition clickDelete (photo : PhotoData) (st : State) : option Call :=
  if toolbar photo st then Some (onDelete (id photo)) else None.

End Card.

(** ** What [App] renders (App.tsx, lines 254-281) *)

(** [disabled={!!stagedPhoto}] of the shutter button. *)
Definition shutterDisabled (s : AppState) : bool := isSome (stagedPhoto s).

(** The text laid over the viewfinder. *)
Definition viewfinderOverlay (s : AppState) : option string :=
  if negb (AppStatus_eqb (status s) CAMERA_READY)
  then Some (if AppStatus_eqb (status s) ERROR
             then "Camera Error" else "Loading...")
  else None.

(** The flash overlay. *)
Definition flashOverlay (s : AppState) : bool :=
  AppStatus_eqb (status s) TAKING_PHOTO.

(** ** The canvas transform and [drawImage] (App.tsx, lines 100-108) *)

Module Canvas2D.

(** The current transformation matrix [a c e; b d f]; it takes user space to
    canvas pixels.  Setting [canvas.width] resets it to the identity. *)
Record Matrix := { a : Q; b : Q; c : Q; d : Q; e : Q; f : Q }.





Definition apply (m : Matrix) (p : Q * Q) : Q * Q :=
  (a m * fst p + c m * snd p + e m, b m * fst p + d m * snd p + f m).




End Canvas2D.

(** ** Events by kind *)

(** The camera start that grants access. *)
Definition grants (e : Event) : bool :=
  match e with
  | CameraStarted granted => granted
  | _ => false
  end.

Definition startsCamera (e : Event) : bool :=
  match e with
  | CameraStarted _ => true
  | _ => false
  end.


(** The fields of a photo that say which shot it is. *)
Definition same_shot (p p' : PhotoData) : Prop :=
  id p = id p' /\ imageData p = imageData p'
  /\ dateString p = dateString p' /\ timestamp p = timestamp p'
  /\ rotation p = rotation p'.


(** ** Sample values *)

Definition hd_frame : Video := {| videoWidth := 1280; videoHeight := 720 |}.

Definition portrait_frame : Video :=
  {| videoWidth := 480; videoHeight := 800 |}.

(** A frame whose width 3 does not divide. *)
Definition narrow_frame : Video :=
  {| videoWidth := 100; videoHeight := 200 |}.

Definition wall_point : Position := {| x := 412; y := 96 |}.

(** A freshly captured photo. *)
Definition photo_a : PhotoData :=
  {| id := "a";
     imageData := "data:image/png;base64,iVBORw0KGgo=";
     caption := "";
     dateString := "Nov 3, 2026";
     timestamp := 1793690000000;
     isDeveloping := true;
     isStaged := true;
     position := {| x := 0; y := 0 |};
     rotation := 3 # 2 |}.

(** A photo on the wall. *)
Definition photo_b : PhotoData :=
  {| id := "b";
     imageData := "data:image/png;base64,R0lGODlhAQ==";
     caption := "Golden hour smiles";
     dateString := "Nov 2, 2026";
     timestamp := 1793600000000;
     isDeveloping := false;
     isStaged := false;
     position := {| x := 640; y := 200 |};
     rotation := - (1 # 2) |}.


(** One photo staged, one on the wall. *)
Definition staging : AppState :=
  {| status := CAMERA_READY; photos := [photo_b];
     stagedPhoto := Some photo_a |}.

(** Nothing staged, one photo on the wall. *)
Definition idle_wall : AppState :=
  {| status := CAMERA_READY; photos := [photo_b]; stagedPhoto := None |}.

Definition sample_canvas : Canvas :=
  {| getContext := true;
     toDataURL := fun _ => "data:image/png;base64,iVBORw0KGgo=" |}.

Definition sample_env : CaptureEnv :=
  {| videoRef := Some hd_frame;
     canvasRef := Some sample_canvas;
     generateId := "a";
     dateNow := 1793690000000;
     toLocaleDateString := "Nov 3, 2026";
     mathRandom := 3 # 4 |}.

(** The surroundings of a capture that finds no canvas. *)
Definition blind_env : CaptureEnv :=
  {| videoRef := Some hd_frame;
     canvasRef := None;
     generateId := "c";
     dateNow := 1793690000000;
     toLocaleDateString := "Nov 3, 2026";
     mathRandom := 1 # 4 |}.

(** Two captures for which [generateId] returned the same id, the first
    photo placed in between: the staged photo and a placed photo share an
    id. *)
Definition collided : AppState :=
  run [ CameraStarted true; Shutter sample_env;
        Card (onDragRelease "a" wall_point); Shutter sample_env ]
    initialState.

(** One capture, dragged to the wall. *)
Definition placed_once : AppState :=
  run [ CameraStarted true; Shutter sample_env;
        Card (onDragRelease "a" wall_point) ]
    initialState.

(** The photo on the wall of [placed_once]. *)
Definition wall_photo : PhotoData :=
  {| id := "a";
     imageData := toDataURL sample_canvas (cropRegion64 hd_frame);
     caption := "";
     dateString := "Nov 3, 2026";
     timestamp := 1793690000000;
     isDeveloping := true;
     isStaged := false;
     position := wall_point;
     rotation := mathRandom sample_env * 6 - 3 |}.

(** * Properties *)

(** ** The crop region *)

Lemma targetRatio_three_quarters : targetRatio == 3 # 4.
Proof. reflexivity. Qed.

Lemma num_pos (n : N) : (0 < n)%N -> 0 < num n.
Proof.
  intros Hn. unfold num, Qlt. simpl. lia.
Qed.

Lemma num_nonneg (n : N) : 0 <= num n.
Proof.
  unfold num, Qle, inject_Z. cbn [Qnum Qden]. lia.
Qed.

(** With a positive height the ratio is finite, and the test of the source
    is the comparison of the exact ratio with 3/4. *)
Lemma videoRatio_gt (video : Video) :
  (0 < videoHeight video)%N ->
  number_gt (videoRatio video) targetRatio = true
  <-> 3 # 4 < num (videoWidth video) / num (videoHeight video).
Proof.
  intros Hh. apply num_pos in Hh.
  unfold videoRatio, number_div.
  destruct (Qeq_bool (num (videoHeight video)) 0) eqn:E.
  - apply Qeq_bool_iff in E. rewrite E in Hh. discriminate.
  - cbn [number_gt]. rewrite negb_true_iff.
    rewrite <- targetRatio_three_quarters.
    split; intros Hc.
    + apply Qnot_le_lt. intros Hle.
      apply Qle_bool_iff in Hle. congruence.
    + destruct (Qle_bool _ targetRatio) eqn:E'; [|reflexivity].
      apply Qle_bool_iff in E'. exfalso. exact (Qlt_not_le _ _ Hc E').
Qed.


(** The exact ratio compared with 3/4, in integers. *)
Lemma ratio_le_three_quarters (w h : N) :
  (0 < h)%N -> num w / num h <= 3 # 4 <-> (4 * w <= 3 * h)%N.
Proof.
  intros Hh. pose proof (num_pos h Hh) as Hpos.
  assert (E : num w / num h <= 3 # 4 <-> num w <= (3 # 4) * num h).
  { split; intros H.
    - apply (Qmult_le_r _ _ (/ num h)); [apply Qinv_lt_0_compat, Hpos |].
      setoid_replace ((3 # 4) * num h * / num h) with (3 # 4)
        by (field; intros E; rewrite E in Hpos; discriminate).
      exact H.
    - apply Qle_shift_div_r; assumption. }
  rewrite E. unfold num, Qle, Qmult, inject_Z. cbn [Qnum Qden]. lia.
Qed.


(** In exact arithmetic: for a frame whose width/height ratio exceeds 3/4
    the crop keeps the full height, has width [height * 3/4], x-offset
    [(width - cropWidth) / 2] and y-offset 0; for a frame whose ratio is at
    most 3/4 it keeps the full width, has height [width / (3/4)], x-offset 0
    and y-offset [(height - cropHeight) / 2].  In both cases the crop is
    centred in the frame and has aspect ratio 3:4. *)
Lemma cropRegion_centered_three_by_four (video : Video) :
  (0 < videoHeight video)%N ->
  (3 # 4 < num (videoWidth video) / num (videoHeight video) ->
     sourceHeight (cropRegion video) == num (videoHeight video)
     /\ sourceWidth (cropRegion video) == num (videoHeight video) * (3 # 4)
     /\ sourceX (cropRegion video)
        == (num (videoWidth video) - sourceWidth (cropRegion video)) / 2
     /\ sourceY (cropRegion video) == 0)
  /\ (num (videoWidth video) / num (videoHeight video) <= 3 # 4 ->
     sourceWidth (cropRegion video) == num (videoWidth video)
     /\ sourceHeight (cropRegion video) == num (videoWidth video) / (3 # 4)
     /\ sourceX (cropRegion video) == 0
     /\ sourceY (cropRegion video)
        == (num (videoHeight video) - sourceHeight (cropRegion video)) / 2)
  /\ sourceX (cropRegion video) + sourceWidth (cropRegion video) / 2
     == num (videoWidth video) / 2
  /\ sourceY (cropRegion video) + sourceHeight (cropRegion video) / 2
     == num (videoHeight video) / 2
  /\ sourceWidth (cropRegion video)
     == sourceHeight (cropRegion video) * (3 # 4).
Proof.
  intros Hh. pose proof (videoRatio_gt video Hh) as Hgt.
  unfold cropRegion.
  destruct (number_gt (videoRatio video) targetRatio) eqn:E;
    cbn [sourceX sourceY sourceWidth sourceHeight];
    rewrite ?targetRatio_three_quarters.
  - split; [intros _ | split; [intros Hle; exfalso |]].
    + repeat split; reflexivity.
    + exact (Qlt_not_le _ _ (proj1 Hgt eq_refl) Hle).
    + repeat split; try reflexivity; field.
  - split; [intros Hlt; apply Hgt in Hlt; discriminate | split; [intros _ |]].
    + repeat split; reflexivity.
    + repeat split; try reflexivity; field.
Qed.


(** ** Binary64 arithmetic: powers of two *)

Lemma pow2_pos (k : Z) : 0 < 2 ^ k.
Proof. apply Qpower_0_lt. reflexivity. Qed.

Lemma pow2_plus (a b : Z) : 2 ^ (a + b) == 2 ^ a * 2 ^ b.
Proof. apply Qpower_plus. discriminate. Qed.

Lemma pow2_le (a b : Z) : (a <= b)%Z -> 2 ^ a <= 2 ^ b.
Proof. intros H. apply Qpower_le_compat_l; [exact H | discriminate]. Qed.

Lemma pow2_lt (a b : Z) : (a < b)%Z -> 2 ^ a < 2 ^ b.
Proof. intros H. apply Qpower_lt_compat_l; [exact H | reflexivity]. Qed.

Lemma pow2_lt_inv (a b : Z) : 2 ^ a < 2 ^ b -> (a < b)%Z.
Proof. intros H. apply (Qpower_lt_compat_l_inv 2); [exact H | reflexivity]. Qed.

Lemma pow2_cancel (a : Z) : 2 ^ a * 2 ^ (- a) == 1.
Proof. rewrite <- pow2_plus. rewrite Z.add_opp_diag_r. reflexivity. Qed.

Lemma pow2_Z (k : Z) : (0 <= k)%Z -> 2 ^ k == inject_Z (2 ^ k).
Proof. intros H. rewrite (Zpower_Qpower 2 k H). reflexivity. Qed.

Lemma pow2_succ (a : Z) : 2 ^ (a + 1) == 2 * 2 ^ a.
Proof. rewrite pow2_plus. ring. Qed.

(** ** The binary exponent and the nearest integer *)

Lemma Q_as_fraction (q : Q) :
  q * inject_Z (Zpos (Qden q)) == inject_Z (Qnum q).
Proof.
  destruct q as [n d]. unfold Qeq, Qmult, inject_Z. cbn [Qnum Qden]. lia.
Qed.

Lemma den_pos (q : Q) : 0 < inject_Z (Zpos (Qden q)).
Proof. unfold Qlt, inject_Z. cbn. lia. Qed.

Lemma Q_lt_fraction (q x : Q) :
  q < x <-> inject_Z (Qnum q) < x * inject_Z (Zpos (Qden q)).
Proof.
  rewrite <- Q_as_fraction. split; intros H.
  - apply Qmult_lt_compat_r; [apply den_pos | exact H].
  - apply Qmult_lt_r in H; [exact H | apply den_pos].
Qed.

Lemma Q_le_fraction (q x : Q) :
  x <= q <-> x * inject_Z (Zpos (Qden q)) <= inject_Z (Qnum q).
Proof.
  rewrite <- Q_as_fraction. split; intros H.
  - apply Qmult_le_compat_r; [exact H | apply Qlt_le_weak, den_pos].
  - apply Qmult_le_r in H; [exact H | apply den_pos].
Qed.

Lemma log2_bounds (z : Z) :
  (0 < z)%Z ->
  2 ^ (Z.log2 z) <= inject_Z z /\ inject_Z z < 2 ^ (Z.log2 z + 1).
Proof.
  intros Hz. pose proof (Z.log2_nonneg z) as Hn.
  destruct (Z.log2_spec z Hz) as [H1 H2].
  rewrite !pow2_Z by lia. rewrite <- Zle_Qle, <- Zlt_Qlt.
  replace (Z.log2 z + 1)%Z with (Z.succ (Z.log2 z)) by lia. split; assumption.
Qed.

Lemma ilog2_spec (q : Q) :
  0 < q -> 2 ^ (ilog2 q) <= q /\ q < 2 ^ (ilog2 q + 1).
Proof.
  intros Hq.
  assert (Hn : (0 < Qnum q)%Z).
  { destruct q as [n d]. unfold Qlt in Hq. cbn in *. lia. }
  destruct (log2_bounds (Qnum q) Hn) as [Hn1 Hn2].
  destruct (log2_bounds (Zpos (Qden q)) eq_refl) as [Hd1 Hd2].
  unfold ilog2.
  set (a := Z.log2 (Qnum q)) in *. set (b := Z.log2 (Zpos (Qden q))) in *.
  destruct (Qle_bool (2 ^ (a - b)) q) eqn:E.
  - apply Qle_bool_iff in E. split; [exact E |].
    apply Q_lt_fraction.
    apply Qlt_le_trans with (1 := Hn2).
    replace (a + 1)%Z with ((a - b + 1) + b)%Z by lia.
    rewrite pow2_plus.
    apply Qmult_le_l; [apply pow2_pos | exact Hd1].
  - assert (E' : q < 2 ^ (a - b)).
    { apply Qnot_le_lt. intros H. apply Qle_bool_iff in H. congruence. }
    replace (a - b - 1 + 1)%Z with (a - b)%Z by lia.
    split; [| exact E'].
    apply Q_le_fraction.
    apply Qle_trans with (2 := Hn1).
    replace a with ((a - b - 1) + (b + 1))%Z at 2 by lia.
    rewrite pow2_plus.
    apply Qmult_le_l; [apply pow2_pos | apply Qlt_le_weak, Hd2].
Qed.

Lemma ilog2_unique (q : Q) (k : Z) :
  2 ^ k <= q -> q < 2 ^ (k + 1) -> ilog2 q = k.
Proof.
  intros H1 H2.
  assert (Hq : 0 < q) by (apply Qlt_le_trans with (2 := H1), pow2_pos).
  destruct (ilog2_spec q Hq) as [I1 I2].
  assert (A : (ilog2 q < k + 1)%Z).
  { apply pow2_lt_inv. apply Qle_lt_trans with (1 := I1). exact H2. }
  assert (B : (k < ilog2 q + 1)%Z).
  { apply pow2_lt_inv. apply Qle_lt_trans with (1 := H1). exact I2. }
  lia.
Qed.

Lemma ilog2_comp (q q' : Q) : 0 < q -> q == q' -> ilog2 q = ilog2 q'.
Proof.
  intros Hq E. symmetry. apply ilog2_unique.
  - rewrite <- E. apply ilog2_spec, Hq.
  - rewrite <- E. apply ilog2_spec, Hq.
Qed.

Lemma rne_comp (x y : Q) : x == y -> rne x = rne y.
Proof.
  intros E. unfold rne. rewrite (Qfloor_comp x y E).
  assert (E' : x - inject_Z (Qfloor y) == y - inject_Z (Qfloor y))
    by (rewrite E; reflexivity).
  rewrite (Qcompare_comp _ _ E' (1 # 2) (1 # 2) (Qeq_refl _)).
  reflexivity.
Qed.

Lemma rne_Z (z : Z) : rne (inject_Z z) = z.
Proof.
  unfold rne. rewrite Qfloor_Z.
  assert (E : inject_Z z - inject_Z z == 0) by ring.
  rewrite (Qcompare_comp _ _ E (1 # 2) (1 # 2) (Qeq_refl _)).
  reflexivity.
Qed.

Lemma rne_near (x : Q) :
  x - (1 # 2) <= inject_Z (rne x) /\ inject_Z (rne x) <= x + (1 # 2).
Proof.
  pose proof (Qfloor_le x) as H1. pose proof (Qlt_floor x) as H2.
  rewrite inject_Z_plus in H2. change (inject_Z 1) with 1 in H2.
  unfold rne.
  destruct (Qcompare_spec (x - inject_Z (Qfloor x)) (1 # 2)) as [E | E | E];
    [destruct (Z.even (Qfloor x)) | |];
    rewrite ?inject_Z_plus; change (inject_Z 1) with 1; split; lra.
Qed.

(** ** Rounding *)

Lemma eps64_pow2 : eps64 == 2 ^ (-53).
Proof. reflexivity. Qed.

Lemma scaled_bounds (q : Q) :
  0 < q ->
  2 ^ 52 <= q * 2 ^ (- (ilog2 q - 52))
  /\ q * 2 ^ (- (ilog2 q - 52)) < 2 ^ 53.
Proof.
  intros Hq. destruct (ilog2_spec q Hq) as [H1 H2].
  set (l := ilog2 q) in *.
  split.
  - replace 52%Z with (l + - (l - 52))%Z at 1 by lia.
    rewrite (pow2_plus l (- (l - 52))).
    apply Qmult_le_compat_r; [exact H1 | apply Qlt_le_weak, pow2_pos].
  - replace 53%Z with ((l + 1) + - (l - 52))%Z by lia.
    rewrite (pow2_plus (l + 1) (- (l - 52))).
    apply Qmult_lt_compat_r; [apply pow2_pos | exact H2].
Qed.

Lemma round64_pos_error (q : Q) :
  0 < q ->
  q * (1 - eps64) <= round64_pos q /\ round64_pos q <= q * (1 + eps64).
Proof.
  intros Hq. destruct (ilog2_spec q Hq) as [H1 _].
  unfold round64_pos. set (e := (ilog2 q - 52)%Z).
  destruct (rne_near (q * 2 ^ (- e))) as [R1 R2].
  set (r := inject_Z (rne (q * 2 ^ (- e)))) in *.
  pose proof (pow2_pos e) as He.
  assert (Hc : 2 ^ (- e) * 2 ^ e == 1).
  { rewrite <- pow2_plus. replace (- e + e)%Z with 0%Z by lia. reflexivity. }
  assert (Hhalf : (1 # 2) * 2 ^ e <= q * eps64).
  { rewrite eps64_pow2.
    apply Qle_trans with (2 ^ (ilog2 q) * 2 ^ (-53)).
    - rewrite <- pow2_plus. replace (ilog2 q + -53)%Z with (-1 + e)%Z
        by (unfold e; lia).
      rewrite pow2_plus. apply Qle_refl.
    - apply Qmult_le_compat_r; [exact H1 | apply Qlt_le_weak, pow2_pos]. }
  assert (A : (q * 2 ^ (- e) - (1 # 2)) * 2 ^ e <= r * 2 ^ e).
  { apply Qmult_le_compat_r; [exact R1 | apply Qlt_le_weak, He]. }
  assert (B : r * 2 ^ e <= (q * 2 ^ (- e) + (1 # 2)) * 2 ^ e).
  { apply Qmult_le_compat_r; [exact R2 | apply Qlt_le_weak, He]. }
  assert (E1 : (q * 2 ^ (- e) - (1 # 2)) * 2 ^ e == q - (1 # 2) * 2 ^ e).
  { setoid_replace ((q * 2 ^ (- e) - (1 # 2)) * 2 ^ e)
      with (q * (2 ^ (- e) * 2 ^ e) - (1 # 2) * 2 ^ e) by ring.
    rewrite Hc. ring. }
  assert (E2 : (q * 2 ^ (- e) + (1 # 2)) * 2 ^ e == q + (1 # 2) * 2 ^ e).
  { setoid_replace ((q * 2 ^ (- e) + (1 # 2)) * 2 ^ e)
      with (q * (2 ^ (- e) * 2 ^ e) + (1 # 2) * 2 ^ e) by ring.
    rewrite Hc. ring. }
  rewrite E1 in A. rewrite E2 in B.
  split; lra.
Qed.

Lemma round64_pos_exact (z k : Z) :
  (0 < z)%Z -> (z < 2 ^ 53)%Z ->
  round64_pos (inject_Z z * 2 ^ k) == inject_Z z * 2 ^ k.
Proof.
  intros Hz0 Hz1.
  assert (Hq : 0 < inject_Z z * 2 ^ k).
  { apply Qmult_lt_0_compat; [| apply pow2_pos].
    rewrite Zlt_Qlt in Hz0. exact Hz0. }
  destruct (scaled_bounds _ Hq) as [S1 _].
  unfold round64_pos. set (e := (ilog2 (inject_Z z * 2 ^ k) - 52)%Z) in *.
  assert (Es : inject_Z z * 2 ^ k * 2 ^ (- e) == inject_Z z * 2 ^ (k - e)).
  { rewrite <- Qmult_assoc, <- pow2_plus. reflexivity. }
  rewrite Es in S1.
  assert (Hke : (0 <= k - e)%Z).
  { assert (H : 2 ^ (-1) < 2 ^ (k - e)).
    { apply Qnot_le_lt. intros Hle.
      assert (Hz : inject_Z z < 2 ^ 53).
      { rewrite (pow2_Z 53) by lia. rewrite <- Zlt_Qlt. exact Hz1. }
      assert (Hc : inject_Z z * 2 ^ (k - e) < 2 ^ 53 * 2 ^ (-1)).
      { apply Qle_lt_trans with (inject_Z z * 2 ^ (-1)).
        - apply Qmult_le_l; [rewrite Zlt_Qlt in Hz0; exact Hz0 | exact Hle].
        - apply Qmult_lt_compat_r; [apply pow2_pos | exact Hz]. }
      rewrite <- pow2_plus in Hc. change (53 + -1)%Z with 52%Z in Hc.
      exact (Qlt_not_le _ _ Hc S1). }
    apply pow2_lt_inv in H. lia. }
  assert (Ei : inject_Z z * 2 ^ (k - e) == inject_Z (z * 2 ^ (k - e))).
  { rewrite inject_Z_mult, (pow2_Z _ Hke). reflexivity. }
  rewrite (rne_comp _ _ Es), (rne_comp _ _ Ei), rne_Z, <- Ei.
  rewrite <- Qmult_assoc, <- pow2_plus.
  replace (k - e + e)%Z with k by lia. reflexivity.
Qed.

Lemma round64_pos_comp (q q' : Q) :
  0 < q -> q == q' -> round64_pos q == round64_pos q'.
Proof.
  intros Hq E. unfold round64_pos. rewrite <- (ilog2_comp q q' Hq E).
  assert (E' : q * 2 ^ (- (ilog2 q - 52)) == q' * 2 ^ (- (ilog2 q - 52)))
    by (apply Qmult_comp; [exact E | reflexivity]).
  rewrite (rne_comp _ _ E'). reflexivity.
Qed.

Lemma round64_comp (q q' : Q) : q == q' -> round64 q == round64 q'.
Proof.
  intros E. unfold round64.
  rewrite <- (Qcompare_comp _ _ E 0 0 (Qeq_refl 0)).
  destruct (Qcompare_spec q 0) as [H | H | H].
  - reflexivity.
  - apply Qopp_comp. apply round64_pos_comp; [lra | rewrite E; reflexivity].
  - apply round64_pos_comp; assumption.
Qed.

Lemma round64_zero (q : Q) : q == 0 -> round64 q == 0.
Proof.
  intros E. rewrite (round64_comp q 0 E). reflexivity.
Qed.

Lemma round64_positive (q : Q) : 0 < q -> round64 q = round64_pos q.
Proof.
  intros H. unfold round64.
  destruct (Qcompare_spec q 0) as [E | E | E]; [lra | lra | reflexivity].
Qed.

(** Dyadic rationals with a numerator below [2 ^ 53] are not rounded. *)
Lemma round64_exact (z k : Z) :
  (0 <= z)%Z -> (z < 2 ^ 53)%Z ->
  round64 (inject_Z z * 2 ^ k) == inject_Z z * 2 ^ k.
Proof.
  intros Hz0 Hz1. destruct (Z.eq_dec z 0) as [-> | Hne].
  - assert (E : inject_Z 0 * 2 ^ k == 0) by ring.
    rewrite (round64_zero _ E), E. reflexivity.
  - assert (Hq : 0 < inject_Z z * 2 ^ k).
    { apply Qmult_lt_0_compat; [| apply pow2_pos].
      assert (0 < z)%Z by lia. rewrite Zlt_Qlt in H. exact H. }
    rewrite (round64_positive _ Hq). apply round64_pos_exact; lia.
Qed.

(** The relative error of rounding is at most [2 ^ -53]. *)
Lemma round64_error (q : Q) :
  0 <= q ->
  q * (1 - eps64) <= round64 q /\ round64 q <= q * (1 + eps64).
Proof.
  intros Hq. destruct (Qlt_le_dec 0 q) as [Hpos | Hle].
  - rewrite (round64_positive _ Hpos). apply round64_pos_error, Hpos.
  - assert (E : q == 0) by lra. rewrite (round64_zero q E).
    rewrite E. split; lra.
Qed.

Lemma round64_representable (q : Q) : 0 <= q -> representable64 (round64 q).
Proof.
  intros Hq. destruct (Qlt_le_dec 0 q) as [Hpos | Hle].
  - rewrite (round64_positive _ Hpos). unfold round64_pos.
    destruct (scaled_bounds q Hpos) as [S1 S2].
    set (e := (ilog2 q - 52)%Z) in *.
    destruct (rne_near (q * 2 ^ (- e))) as [R1 R2].
    exists (rne (q * 2 ^ (- e))), e. split; [| reflexivity].
    assert (A : inject_Z (rne (q * 2 ^ (- e))) < inject_Z (2 ^ 53 + 1)).
    { rewrite inject_Z_plus, <- (pow2_Z 53) by lia.
      change (inject_Z 1) with 1. lra. }
    assert (B : inject_Z 0 < inject_Z (rne (q * 2 ^ (- e)))).
    { change (inject_Z 0) with 0.
      assert (1 <= 2 ^ 52) by (apply (pow2_le 0 52); lia). lra. }
    rewrite <- Zlt_Qlt in A, B. lia.
  - exists 0%Z, 0%Z. split; [cbn; lia |].
    rewrite (round64_zero q) by lra. reflexivity.
Qed.

(** ** The crop region in binary64 *)

Lemma targetRatio64_three_quarters : targetRatio64 == 3 # 4.
Proof.
  unfold targetRatio64.
  rewrite (round64_comp _ (inject_Z 3 * 2 ^ (-2))) by reflexivity.
  rewrite round64_exact by lia. reflexivity.
Qed.

Lemma num_below (n : N) : (n < 2 ^ 32)%N -> num n <= 4294967296.
Proof.
  intros H. unfold num, Qle, inject_Z. cbn [Qnum Qden].
  change (2 ^ 32)%N with 4294967296%N in H. lia.
Qed.

Lemma num_Z (n : N) : num n = inject_Z (Z.of_N n).
Proof. reflexivity. Qed.

Lemma videoRatio64_finite (video : Video) :
  (0 < videoHeight video)%N ->
  videoRatio64 video
  = Finite (round64 (num (videoWidth video) / num (videoHeight video))).
Proof.
  intros Hh. apply num_pos in Hh.
  unfold videoRatio64, number_div64, number_div.
  destruct (Qeq_bool (num (videoHeight video)) 0) eqn:E; [| reflexivity].
  apply Qeq_bool_iff in E. rewrite E in Hh. discriminate.
Qed.

(** The rounded ratio compares with 3/4 as the exact ratio does: between
    two frame sizes below [2 ^ 32] the exact ratio is 3/4 or differs from it
    by more than rounding can undo. *)
Lemma cropRegion64_branch (video : Video) :
  (0 < videoHeight video)%N ->
  (videoWidth video < 2 ^ 32)%N -> (videoHeight video < 2 ^ 32)%N ->
  number_gt (videoRatio64 video) targetRatio64 = true
  <-> 3 # 4 < num (videoWidth video) / num (videoHeight video).
Proof.
  intros Hh Hw32 Hh32.
  rewrite (videoRatio64_finite video Hh). cbn [number_gt].
  pose proof (num_pos _ Hh) as Hpos.
  pose proof (num_nonneg (videoWidth video)) as Hw0.
  pose proof (num_below _ Hh32) as Hhb.
  set (W := num (videoWidth video)) in *.
  set (H := num (videoHeight video)) in *.
  assert (Hq0 : 0 <= W / H).
  { apply Qle_shift_div_l; [exact Hpos | lra]. }
  destruct (round64_error (W / H) Hq0) as [R1 R2].
  pose proof targetRatio64_three_quarters as Ht.
  unfold eps64 in R1, R2.
  rewrite negb_true_iff.
  destruct (Z.lt_trichotomy (4 * Z.of_N (videoWidth video))
              (3 * Z.of_N (videoHeight video))) as [Hlt | [Heq | Hgt]].
  - (* below 3/4 *)
    assert (Hz : 4 * W + 1 <= 3 * H).
    { unfold W, H, num, Qle, Qmult, Qplus, inject_Z. cbn [Qnum Qden]. lia. }
    assert (Hq : W / H <= (3 # 4) - (1 # 17179869184)).
    { apply Qle_shift_div_r; [exact Hpos | lra]. }
    split; intros Hc.
    + exfalso.
      assert (Hle : round64 (W / H) <= targetRatio64) by (rewrite Ht; lra).
      apply Qle_bool_iff in Hle. congruence.
    + exfalso. lra.
  - (* exactly 3/4 *)
    assert (Hz : 4 * W == 3 * H).
    { unfold W, H, num, Qeq, Qmult, inject_Z. cbn [Qnum Qden]. lia. }
    assert (Hq : W / H == 3 # 4).
    { apply Qle_antisym;
        [apply Qle_shift_div_r | apply Qle_shift_div_l]; lra. }
    assert (Hr : round64 (W / H) == 3 # 4).
    { rewrite (round64_comp _ (inject_Z 3 * 2 ^ (-2))).
      - rewrite round64_exact by lia. reflexivity.
      - rewrite Hq. reflexivity. }
    split; intros Hc.
    + exfalso.
      assert (Hle : round64 (W / H) <= targetRatio64) by (rewrite Ht, Hr; lra).
      apply Qle_bool_iff in Hle. congruence.
    + exfalso. lra.
  - (* above 3/4 *)
    assert (Hz : 3 * H + 1 <= 4 * W).
    { unfold W, H, num, Qle, Qmult, Qplus, inject_Z. cbn [Qnum Qden]. lia. }
    assert (Hq : (3 # 4) + (1 # 17179869184) <= W / H).
    { apply Qle_shift_div_l; [exact Hpos | lra]. }
    split; intros _.
    + lra.
    + destruct (Qle_bool (round64 (W / H)) targetRatio64) eqn:E;
        [| reflexivity].
      apply Qle_bool_iff in E. rewrite Ht in E. exfalso. lra.
Qed.

#[global] Instance round64_Proper : Proper (Qeq ==> Qeq) round64.
Proof. intros q q' E. apply round64_comp, E. Qed.

Lemma round64_quarters (z : Z) :
  (0 <= z)%Z -> (z < 2 ^ 53)%Z ->
  round64 (inject_Z z * (1 # 4)) == inject_Z z * (1 # 4)
  /\ round64 (inject_Z z * (1 # 4) / 2) == inject_Z z * (1 # 4) / 2.
Proof.
  intros H0 H1. split.
  - change (1 # 4) with (2 ^ (-2)). apply round64_exact; assumption.
  - assert (E : inject_Z z * (1 # 4) / 2 == inject_Z z * 2 ^ (-3)).
    { change (2 ^ (-3)) with (1 # 8). field. }
    rewrite E. apply round64_exact; assumption.
Qed.

Lemma round64_halves (z : Z) :
  (0 <= z)%Z -> (z < 2 ^ 53)%Z ->
  round64 (inject_Z z) == inject_Z z
  /\ round64 (inject_Z z / 2) == inject_Z z / 2.
Proof.
  intros H0 H1. split.
  - assert (E : inject_Z z == inject_Z z * 2 ^ 0)
      by (change (2 ^ 0) with 1; ring).
    rewrite E at 1. rewrite round64_exact by assumption. symmetry. exact E.
  - assert (E : inject_Z z / 2 == inject_Z z * 2 ^ (-1)).
    { change (2 ^ (-1)) with (1 # 2). field. }
    rewrite E. apply round64_exact; assumption.
Qed.

(** The height-bound branch: nothing is rounded. *)
Lemma cropRegion64_wide (video : Video) :
  (0 < videoHeight video)%N ->
  (videoWidth video < 2 ^ 32)%N -> (videoHeight video < 2 ^ 32)%N ->
  3 # 4 < num (videoWidth video) / num (videoHeight video) ->
  sourceHeight (cropRegion64 video) == num (videoHeight video)
  /\ sourceWidth (cropRegion64 video) == num (videoHeight video) * (3 # 4)
  /\ sourceX (cropRegion64 video)
     == (num (videoWidth video) - num (videoHeight video) * (3 # 4)) / 2
  /\ sourceY (cropRegion64 video) == 0.
Proof.
  intros Hh Hw32 Hh32 Hgt.
  pose proof (proj2 (cropRegion64_branch video Hh Hw32 Hh32) Hgt) as E.
  pose proof (ratio_le_three_quarters (videoWidth video) (videoHeight video)
                Hh) as Hle.
  change (2 ^ 32)%N with 4294967296%N in Hw32, Hh32.
  assert (H53 : (2 ^ 53 = 9007199254740992)%Z) by reflexivity.
  assert (Hz : (3 * videoHeight video < 4 * videoWidth video)%N).
  { apply N.nle_gt. intros Hn. apply Hle in Hn.
    exact (Qlt_not_le _ _ Hgt Hn). }
  unfold cropRegion64. rewrite E.
  cbn [sourceX sourceY sourceWidth sourceHeight].
  assert (Esw : round64 (num (videoHeight video) * targetRatio64)
                == num (videoHeight video) * (3 # 4)).
  { rewrite targetRatio64_three_quarters.
    assert (E1 : num (videoHeight video) * (3 # 4)
                 == inject_Z (3 * Z.of_N (videoHeight video)) * (1 # 4)).
    { rewrite inject_Z_mult. unfold num. ring. }
    rewrite E1. apply round64_quarters; lia. }
  rewrite Esw.
  assert (E1 : num (videoWidth video) - num (videoHeight video) * (3 # 4)
               == inject_Z (4 * Z.of_N (videoWidth video)
                            - 3 * Z.of_N (videoHeight video)) * (1 # 4)).
  { unfold Z.sub. rewrite inject_Z_plus, inject_Z_opp, !inject_Z_mult.
    unfold num. ring. }
  destruct (round64_quarters
              (4 * Z.of_N (videoWidth video)
               - 3 * Z.of_N (videoHeight video))) as [Q1 Q2]; [lia.. |].
  split; [reflexivity |]. split; [reflexivity |]. split; [| reflexivity].
  rewrite E1, Q1. exact Q2.
Qed.

(** The width-bound branch: the height is a rounded quotient. *)
Lemma cropRegion64_tall (video : Video) :
  (0 < videoHeight video)%N ->
  (videoWidth video < 2 ^ 32)%N -> (videoHeight video < 2 ^ 32)%N ->
  num (videoWidth video) / num (videoHeight video) <= 3 # 4 ->
  sourceWidth (cropRegion64 video) == num (videoWidth video)
  /\ sourceX (cropRegion64 video) == 0
  /\ sourceHeight (cropRegion64 video)
     == round64 (num (videoWidth video) / (3 # 4))
  /\ sourceY (cropRegion64 video)
     == round64
          (round64 (num (videoHeight video)
                    - round64 (num (videoWidth video) / (3 # 4))) / 2).
Proof.
  intros Hh Hw32 Hh32 Hlt.
  pose proof (cropRegion64_branch video Hh Hw32 Hh32) as Hb.
  assert (E : number_gt (videoRatio64 video) targetRatio64 = false).
  { destruct (number_gt (videoRatio64 video) targetRatio64) eqn:E';
      [| reflexivity].
    exfalso. exact (Qlt_not_le _ _ (proj1 Hb eq_refl) Hlt). }
  unfold cropRegion64. rewrite E.
  cbn [sourceX sourceY sourceWidth sourceHeight].
  rewrite targetRatio64_three_quarters.
  repeat split; reflexivity.
Qed.

(** When 3 divides the width, the quotient and what follows are exact. *)
Lemma cropRegion64_tall_exact (video : Video) :
  (0 < videoHeight video)%N ->
  (videoWidth video < 2 ^ 32)%N -> (videoHeight video < 2 ^ 32)%N ->
  num (videoWidth video) / num (videoHeight video) <= 3 # 4 ->
  (videoWidth video mod 3 = 0)%N ->
  sourceHeight (cropRegion64 video) == num (videoWidth video) / (3 # 4)
  /\ sourceY (cropRegion64 video)
     == (num (videoHeight video) - num (videoWidth video) / (3 # 4)) / 2.
Proof.
  intros Hh Hw32 Hh32 Hlt Hmod.
  destruct (cropRegion64_tall video Hh Hw32 Hh32 Hlt) as (_ & _ & Esh & Esy).
  apply (ratio_le_three_quarters _ _ Hh) in Hlt.
  change (2 ^ 32)%N with 4294967296%N in Hw32, Hh32.
  assert (H53 : (2 ^ 53 = 9007199254740992)%Z) by reflexivity.
  assert (Hk : exists k, videoWidth video = (3 * k)%N).
  { exists (videoWidth video / 3)%N.
    pose proof (N.div_mod' (videoWidth video) 3) as D. lia. }
  destruct Hk as [k Hk].
  assert (Eq4 : num (videoWidth video) / (3 # 4)
                == inject_Z (4 * Z.of_N k)).
  { rewrite Hk, inject_Z_mult. unfold num.
    rewrite N2Z.inj_mul, inject_Z_mult. change (inject_Z (Z.of_N 3)) with 3.
    change (inject_Z 4) with 4. field. }
  assert (Eh : round64 (num (videoWidth video) / (3 # 4))
               == inject_Z (4 * Z.of_N k)).
  { rewrite Eq4. apply round64_halves; lia. }
  rewrite Esh, Esy, Eh, Eq4.
  split; [reflexivity |].
  assert (E1 : num (videoHeight video) - inject_Z (4 * Z.of_N k)
               == inject_Z (Z.of_N (videoHeight video) - 4 * Z.of_N k)).
  { unfold Z.sub. rewrite inject_Z_plus, inject_Z_opp. reflexivity. }
  destruct (round64_halves (Z.of_N (videoHeight video) - 4 * Z.of_N k))
    as [Q1 Q2]; [lia.. |].
  rewrite E1, Q1. exact Q2.
Qed.

(** C1, as stated, fails in the code's arithmetic: for a frame of 100 by
    200 the height of the crop is the binary64 number next to 400/3, not
    400/3, so that the sides are not exactly in the ratio 3:4. *)
Lemma cropRegion64_not_exact :
  ~ (forall video : Video,
       (0 < videoHeight video)%N ->
       num (videoWidth video) / num (videoHeight video) <= 3 # 4 ->
       sourceHeight (cropRegion64 video)
       == num (videoWidth video) / (3 # 4)
       /\ sourceWidth (cropRegion64 video)
          == sourceHeight (cropRegion64 video) * (3 # 4)).
Proof.
  intros H.
  destruct (H {| videoWidth := 100; videoHeight := 200 |} eq_refl)
    as [H1 _]; [discriminate |].
  vm_compute in H1. discriminate H1.
Qed.

(** C1, amended.  For a frame with sizes below [2 ^ 32] and a positive
    height, the crop is computed in binary64.  When the width/height ratio
    exceeds 3/4 nothing is rounded: the crop has the full height, width
    [height * 3/4], x-offset [(width - cropWidth) / 2] and y-offset 0; it is
    centred and its sides are in the ratio 3:4.  When the ratio is at most
    3/4 the crop has the full width and x-offset 0; its height is
    [width / (3/4)] rounded to binary64, a binary64 number within a
    relative [2 ^ -53] of [width / (3/4)], and its y-offset is
    [(height - cropHeight) / 2] with the subtraction and the halving
    rounded; when 3 divides the width nothing is rounded, and the crop is
    centred with sides in the ratio 3:4. *)
Theorem cropRegion64_centered_three_by_four (video : Video) :
  (0 < videoHeight video)%N ->
  (videoWidth video < 2 ^ 32)%N -> (videoHeight video < 2 ^ 32)%N ->
  (3 # 4 < num (videoWidth video) / num (videoHeight video) ->
     sourceHeight (cropRegion64 video) == num (videoHeight video)
     /\ sourceWidth (cropRegion64 video)
        == num (videoHeight video) * (3 # 4)
     /\ sourceX (cropRegion64 video)
        == (num (videoWidth video) - sourceWidth (cropRegion64 video)) / 2
     /\ sourceY (cropRegion64 video) == 0
     /\ sourceX (cropRegion64 video) + sourceWidth (cropRegion64 video) / 2
        == num (videoWidth video) / 2
     /\ sourceY (cropRegion64 video) + sourceHeight (cropRegion64 video) / 2
        == num (videoHeight video) / 2
     /\ sourceWidth (cropRegion64 video)
        == sourceHeight (cropRegion64 video) * (3 # 4))
  /\ (num (videoWidth video) / num (videoHeight video) <= 3 # 4 ->
      sourceWidth (cropRegion64 video) == num (videoWidth video)
      /\ sourceX (cropRegion64 video) == 0
      /\ sourceHeight (cropRegion64 video)
         == round64 (num (videoWidth video) / (3 # 4))
      /\ sourceY (cropRegion64 video)
         == round64
              (round64 (num (videoHeight video)
                        - sourceHeight (cropRegion64 video)) / 2)
      /\ representable64 (sourceHeight (cropRegion64 video))
      /\ num (videoWidth video) / (3 # 4) * (1 - eps64)
         <= sourceHeight (cropRegion64 video)
      /\ sourceHeight (cropRegion64 video)
         <= num (videoWidth video) / (3 # 4) * (1 + eps64)
      /\ ((videoWidth video mod 3 = 0)%N ->
          sourceHeight (cropRegion64 video)
          == num (videoWidth video) / (3 # 4)
          /\ sourceY (cropRegion64 video)
             == (num (videoHeight video)
                 - sourceHeight (cropRegion64 video)) / 2
          /\ sourceX (cropRegion64 video)
             + sourceWidth (cropRegion64 video) / 2
             == num (videoWidth video) / 2
          /\ sourceY (cropRegion64 video)
             + sourceHeight (cropRegion64 video) / 2
             == num (videoHeight video) / 2
          /\ sourceWidth (cropRegion64 video)
             == sourceHeight (cropRegion64 video) * (3 # 4))).
Proof.
  intros Hh Hw32 Hh32. split.
  - intros Hgt.
    destruct (cropRegion64_wide video Hh Hw32 Hh32 Hgt) as (H1 & H2 & H3 & H4).
    rewrite H1, H2, H3, H4. repeat split; try reflexivity; field.
  - intros Hlt.
    destruct (cropRegion64_tall video Hh Hw32 Hh32 Hlt) as (H1 & H2 & H3 & H4).
    pose proof (num_nonneg (videoWidth video)) as Hw0.
    assert (Hq0 : 0 <= num (videoWidth video) / (3 # 4)).
    { apply Qle_shift_div_l; [reflexivity | lra]. }
    destruct (round64_error _ Hq0) as [R1 R2].
    split; [exact H1 |]. split; [exact H2 |]. split; [exact H3 |].
    split; [rewrite H4, H3; reflexivity |].
    split.
    { destruct (round64_representable _ Hq0) as [m [e [Hm Hme]]].
      exists m, e. split; [exact Hm |]. rewrite H3. exact Hme. }
    split; [rewrite H3; exact R1 |].
    split; [rewrite H3; exact R2 |].
    intros Hmod.
    destruct (cropRegion64_tall_exact video Hh Hw32 Hh32 Hlt Hmod)
      as [E1 E2].
    rewrite E2, E1, H1, H2.
    repeat split; try reflexivity; field.
Qed.

Lemma cropRegion64_centered_three_by_four_witness :
  (sourceHeight (cropRegion64 hd_frame) == num (videoHeight hd_frame)
   /\ sourceWidth (cropRegion64 hd_frame)
      == num (videoHeight hd_frame) * (3 # 4)
   /\ sourceX (cropRegion64 hd_frame)
      == (num (videoWidth hd_frame) - sourceWidth (cropRegion64 hd_frame)) / 2
   /\ sourceY (cropRegion64 hd_frame) == 0
   /\ sourceX (cropRegion64 hd_frame) + sourceWidth (cropRegion64 hd_frame) / 2
      == num (videoWidth hd_frame) / 2
   /\ sourceY (cropRegion64 hd_frame)
      + sourceHeight (cropRegion64 hd_frame) / 2
      == num (videoHeight hd_frame) / 2
   /\ sourceWidth (cropRegion64 hd_frame)
      == sourceHeight (cropRegion64 hd_frame) * (3 # 4))
  /\ sourceHeight (cropRegion64 narrow_frame)
     == round64 (num (videoWidth narrow_frame) / (3 # 4))
  /\ (sourceHeight (cropRegion64 portrait_frame)
      == num (videoWidth portrait_frame) / (3 # 4)
      /\ sourceY (cropRegion64 portrait_frame)
         == (num (videoHeight portrait_frame)
             - sourceHeight (cropRegion64 portrait_frame)) / 2).
Proof.
  split; [| split].
  - exact (proj1 (cropRegion64_centered_three_by_four hd_frame
                    eq_refl eq_refl eq_refl) eq_refl).
  - assert (H : num (videoWidth narrow_frame) / num (videoHeight narrow_frame)
                <= 3 # 4) by discriminate.
    exact (proj1 (proj2 (proj2
             (proj2 (cropRegion64_centered_three_by_four narrow_frame
                       eq_refl eq_refl eq_refl) H)))).
  - assert (H : num (videoWidth portrait_frame)
                / num (videoHeight portrait_frame) <= 3 # 4) by discriminate.
    destruct (proj2 (cropRegion64_centered_three_by_four portrait_frame
                       eq_refl eq_refl eq_refl) H)
      as (_ & _ & _ & _ & _ & _ & _ & Hdiv).
    destruct (Hdiv eq_refl) as (H1 & H2 & _).
    split; assumption.
Defined.

(** On these frames the machine's binary64 arithmetic gives the crop of
    [cropRegion64], field by field. *)
Lemma cropRegion64_matches_machine :
  forallb machine_agrees
    [ (100, 200); (1280, 720); (1920, 1080); (1080, 1080); (640, 480);
      (480, 800); (1, 3); (7, 4294967295); (4294967295, 7);
      (4294967295, 4294967294); (1, 2147483648); (0, 5) ]%N
  = true.
Proof. vm_compute. reflexivity. Qed.

(** ** Records, patches and lists *)

Lemma other_true (i : string) (p : PhotoData) :
  other i p = true <-> id p <> i.
Proof.
  unfold other. rewrite negb_true_iff. apply String.eqb_neq.
Qed.

Lemma holds_false (i : string) (l : list PhotoData) :
  holds i l = false <-> forall p, In p l -> id p <> i.
Proof.
  unfold holds. induction l as [|q l IH]; cbn [existsb].
  - split; [intros _ p [] | reflexivity].
  - rewrite orb_false_iff, IH, String.eqb_neq. split.
    + intros [Hq Hl] p [<- | Hp]; auto.
    + intros H. split; [apply H; left; reflexivity |].
      intros p Hp. apply H. right. exact Hp.
Qed.

Lemma holds_app (i : string) (l1 l2 : list PhotoData) :
  holds i (l1 ++ l2) = holds i l1 || holds i l2.
Proof. apply existsb_app. Qed.

(** A patch by id leaves a list without that id as it is. *)
Lemma map_patch_absent (i : string) (f : PhotoData -> PhotoData)
  (l : list PhotoData) :
  holds i l = false ->
  map (fun p => if String.eqb (id p) i then f p else p) l = l.
Proof.
  rewrite holds_false. intros H.
  induction l as [|q l IH]; cbn [map]; [reflexivity |].
  rewrite IH by (intros p Hp; apply H; right; exact Hp).
  destruct (String.eqb_spec (id q) i) as [E | _]; [| reflexivity].
  exfalso. apply (H q); [left; reflexivity | exact E].
Qed.

Lemma filter_other_absent (i : string) (l : list PhotoData) :
  holds i (filter (other i) l) = false.
Proof.
  apply holds_false. intros p Hp.
  apply filter_In in Hp. apply other_true, Hp.
Qed.

Lemma filter_other_idempotent (i : string) (l : list PhotoData) :
  filter (other i) (filter (other i) l) = filter (other i) l.
Proof.
  induction l as [|q l IH]; cbn [filter]; [reflexivity |].
  destruct (other i q) eqn:E; cbn [filter]; rewrite ?E, IH; reflexivity.
Qed.

(** [updateCaption] is [handlePhotoUpdate] with the patch
    [{ caption: text }]. *)
Lemma updateCaption_handlePhotoUpdate (pid text : string) (s : AppState) :
  updateCaption pid text s
  = handlePhotoUpdate pid (PhotoCard.captioned text) s.
Proof.
  unfold updateCaption, handlePhotoUpdate, setStagedPhoto, setPhotos.
  destruct s as [st ph [staged|]]; cbn [stagedPhoto photos status];
    [destruct (String.eqb (id staged) pid) |]; reflexivity.
Qed.

(** ** Placing: [handleDragRelease] *)

(** C3.  [place(id, pos)]: when the staged slot holds a photo with that id,
    the photo is appended to the placed collection with [isStaged = false]
    and [position = pos] and the slot is emptied; when the slot is empty or
    holds another id, the state is unchanged. *)
Theorem handleDragRelease_moves_or_ignores (i : string) (point : Position)
  (s : AppState) :
  (forall staged, stagedPhoto s = Some staged -> id staged = i ->
     stagedPhoto (handleDragRelease i point s) = None
     /\ photos (handleDragRelease i point s)
        = (photos s
           ++ [ {| id := id staged;
                   imageData := imageData staged;
                   caption := caption staged;
                   dateString := dateString staged;
                   timestamp := timestamp staged;
                   isDeveloping := isDeveloping staged;
                   isStaged := false;
                   position := point;
                   rotation := rotation staged |} ])%list)
  /\ (stagedPhoto s = None -> handleDragRelease i point s = s)
  /\ (forall staged, stagedPhoto s = Some staged -> id staged <> i ->
        handleDragRelease i point s = s).
Proof.
  unfold handleDragRelease. split; [| split].
  - intros staged -> <-. rewrite String.eqb_refl. split; reflexivity.
  - intros ->. reflexivity.
  - intros staged -> Hne.
    rewrite (proj2 (String.eqb_neq _ _) Hne). reflexivity.
Qed.

Lemma handleDragRelease_moves_or_ignores_witness :
  stagedPhoto (handleDragRelease "a" wall_point staging) = None
  /\ photos (handleDragRelease "a" wall_point staging)
     = [ photo_b;
         {| id := "a";
            imageData := imageData photo_a;
            caption := caption photo_a;
            dateString := dateString photo_a;
            timestamp := timestamp photo_a;
            isDeveloping := isDeveloping photo_a;
            isStaged := false;
            position := wall_point;
            rotation := rotation photo_a |} ].
Proof.
  exact (proj1 (handleDragRelease_moves_or_ignores "a" wall_point staging)
           photo_a eq_refl eq_refl).
Defined.

(** ** Patching: [handlePhotoUpdate] and [updateCaption] *)

Lemma handlePhotoUpdate_photos (i : string) (updates : Partial.t)
  (s : AppState) :
  photos (handlePhotoUpdate i updates s)
  = map (fun p => if String.eqb (id p) i then spread p updates else p)
      (photos s).
Proof.
  unfold handlePhotoUpdate.
  destruct (stagedPhoto s) as [staged|];
    [destruct (String.eqb (id staged) i) |]; reflexivity.
Qed.

Lemma handlePhotoUpdate_stagedPhoto (i : string) (updates : Partial.t)
  (s : AppState) :
  stagedPhoto (handlePhotoUpdate i updates s)
  = match stagedPhoto s with
    | Some staged =>
        if String.eqb (id staged) i then Some (spread staged updates)
        else Some staged
    | None => None
    end.
Proof.
  unfold handlePhotoUpdate.
  destruct (stagedPhoto s) as [staged|] eqn:E; cbn [setPhotos stagedPhoto];
    [destruct (String.eqb (id staged) i) |]; cbn [setStagedPhoto stagedPhoto];
    auto.
Qed.

Lemma handlePhotoUpdate_status (i : string) (updates : Partial.t)
  (s : AppState) :
  status (handlePhotoUpdate i updates s) = status s.
Proof.
  unfold handlePhotoUpdate.
  destruct (stagedPhoto s) as [staged|];
    [destruct (String.eqb (id staged) i) |]; reflexivity.
Qed.

Lemma AppState_ext (s t : AppState) :
  status s = status t -> photos s = photos t ->
  stagedPhoto s = stagedPhoto t -> s = t.
Proof.
  destruct s, t; cbn. intros -> -> ->. reflexivity.
Qed.

(** Position by position, a patched list carries the patched record where
    the id matches and the same record elsewhere. *)
Lemma map_patch_Forall2 (i : string) (f : PhotoData -> PhotoData)
  (l : list PhotoData) :
  Forall2 (fun p p' => (id p = i -> p' = f p) /\ (id p <> i -> p' = p))
    l (map (fun p => if String.eqb (id p) i then f p else p) l).
Proof.
  induction l as [|q l IH]; cbn [map]; constructor; [| exact IH].
  destruct (String.eqb_spec (id q) i) as [E | E]; split; intros E';
    congruence.
Qed.

Lemma handlePhotoUpdate_absent (i : string) (updates : Partial.t)
  (s : AppState) :
  holds i (records s) = false -> handlePhotoUpdate i updates s = s.
Proof.
  unfold records. rewrite holds_app, orb_false_iff. intros [Hslot Hph].
  apply AppState_ext.
  - apply handlePhotoUpdate_status.
  - rewrite handlePhotoUpdate_photos. apply map_patch_absent, Hph.
  - rewrite handlePhotoUpdate_stagedPhoto.
    unfold slot, holds in Hslot.
    destruct (stagedPhoto s) as [staged|]; [| reflexivity].
    cbn [existsb] in Hslot. rewrite orb_false_r in Hslot.
    rewrite Hslot. reflexivity.
Qed.




(** ** Deleting: [handlePhotoDelete] *)

Lemma handlePhotoDelete_staged (i : string) (s : AppState)
  (staged : PhotoData) :
  stagedPhoto s = Some staged -> id staged = i ->
  handlePhotoDelete i s = setStagedPhoto (fun _ => None) s.
Proof.
  intros Hs <-. unfold handlePhotoDelete.
  rewrite Hs, String.eqb_refl. reflexivity.
Qed.

Lemma handlePhotoDelete_placed (i : string) (s : AppState) :
  holds i (slot s) = false ->
  handlePhotoDelete i s = setPhotos (filter (other i)) s.
Proof.
  unfold handlePhotoDelete, slot, holds, other.
  destruct (stagedPhoto s) as [staged|]; [| reflexivity].
  cbn [existsb]. rewrite orb_false_r. intros ->. reflexivity.
Qed.

(** [delete(id)] by cases: when the staged slot holds the photo with that
    id the slot is emptied (and the placed collection is as before);
    otherwise the slot is as before and the placed collection is filtered,
    so that no placed record with that id remains.  In both cases a record
    with another id remains. *)
Lemma handlePhotoDelete_removes_from_holder (i : string) (s : AppState) :
  (forall staged, stagedPhoto s = Some staged -> id staged = i ->
     stagedPhoto (handlePhotoDelete i s) = None
     /\ photos (handlePhotoDelete i s) = photos s)
  /\ (holds i (slot s) = false ->
      stagedPhoto (handlePhotoDelete i s) = stagedPhoto s
      /\ photos (handlePhotoDelete i s)
         = filter (fun p => negb (String.eqb (id p) i)) (photos s)
      /\ holds i (photos (handlePhotoDelete i s)) = false)
  /\ holds i (slot (handlePhotoDelete i s)) = false
  /\ (forall p, In p (records s) -> id p <> i ->
        In p (records (handlePhotoDelete i s))).
Proof.
  split; [| split; [| split]].
  - intros staged Hs Hid.
    rewrite (handlePhotoDelete_staged i s staged Hs Hid).
    split; reflexivity.
  - intros Hslot. rewrite (handlePhotoDelete_placed i s Hslot).
    cbn [setPhotos stagedPhoto photos].
    repeat split. apply filter_other_absent.
  - destruct (holds i (slot s)) eqn:Hslot.
    + unfold slot, holds in Hslot.
      destruct (stagedPhoto s) as [staged|] eqn:Hs; [| discriminate].
      cbn [existsb] in Hslot. rewrite orb_false_r in Hslot.
      apply String.eqb_eq in Hslot.
      rewrite (handlePhotoDelete_staged i s staged Hs Hslot). reflexivity.
    + rewrite (handlePhotoDelete_placed i s Hslot). exact Hslot.
  - intros p Hp Hne. unfold records in *. apply in_app_iff in Hp.
    apply in_app_iff.
    destruct (holds i (slot s)) eqn:Hslot.
    + unfold slot, holds in Hslot.
      destruct (stagedPhoto s) as [staged|] eqn:Hs; [| discriminate].
      cbn [existsb] in Hslot. rewrite orb_false_r in Hslot.
      apply String.eqb_eq in Hslot.
      rewrite (handlePhotoDelete_staged i s staged Hs Hslot).
      right. cbn [setStagedPhoto photos].
      destruct Hp as [Hp | Hp]; [| exact Hp].
      unfold slot in Hp. rewrite Hs in Hp.
      destruct Hp as [<- | []]. contradiction.
    + rewrite (handlePhotoDelete_placed i s Hslot).
      destruct Hp as [Hp | Hp]; [left; exact Hp | right].
      cbn [setPhotos photos]. apply filter_In.
      split; [exact Hp | apply other_true, Hne].
Qed.

(** ** A caption that resolves after the deletion *)

Lemma holds_slot (i : string) (s : AppState) :
  holds i (slot s)
  = match stagedPhoto s with
    | Some staged => String.eqb (id staged) i
    | None => false
    end.
Proof.
  unfold slot, holds. destruct (stagedPhoto s); cbn [existsb];
    [apply orb_false_r | reflexivity].
Qed.

Lemma handlePhotoDelete_absent (i : string) (s : AppState) :
  holds i (slot s) && holds i (photos s) = false ->
  holds i (records (handlePhotoDelete i s)) = false.
Proof.
  intros H. unfold records. rewrite holds_app.
  destruct (holds i (slot s)) eqn:Hslot.
  - cbn [andb] in H. rewrite holds_slot in Hslot.
    destruct (stagedPhoto s) as [staged|] eqn:Hs; [| discriminate].
    apply String.eqb_eq in Hslot.
    rewrite (handlePhotoDelete_staged i s staged Hs Hslot).
    unfold slot. cbn [setStagedPhoto stagedPhoto photos]. exact H.
  - rewrite (handlePhotoDelete_placed i s Hslot).
    unfold slot in *. cbn [setPhotos stagedPhoto photos].
    rewrite Hslot. apply filter_other_absent.
Qed.

(** The state [collided] is one the session can reach. *)
Lemma collided_reachable :
  reachable collided
  /\ holds "a" (slot collided) = true
  /\ holds "a" (photos collided) = true.
Proof.
  split; [| split; reflexivity].
  unfold collided, run. cbn [fold_left].
  repeat (apply reachable_step; [exact I |]).
  apply reachable_initial.
Qed.

(** C7, as stated, fails: when the staged photo and a placed photo carry the
    same id, [delete] empties the slot and leaves the placed collection as
    it is, so that a record with that id remains in a collection that held
    it. *)
Lemma handlePhotoDelete_keeps_collided_wall :
  ~ (forall (s : AppState) (i : string),
       (holds i (slot s) = true ->
        holds i (slot (handlePhotoDelete i s)) = false)
       /\ (holds i (photos s) = true ->
           holds i (photos (handlePhotoDelete i s)) = false)).
Proof.
  intros H. destruct (H collided "a") as [_ H2].
  specialize (H2 eq_refl). discriminate H2.
Qed.

(** C7, amended.  [delete(id)]: when the staged slot holds the photo with
    that id the slot is emptied and the placed collection is left as it is;
    otherwise the slot is left as it is and every photo with that id is
    filtered out of the placed collection.  Records with other ids remain.
    Provided the id is not held by the staged slot and by the placed
    collection at once, after the call no record with that id remains in
    the slot or in the placed collection. *)
Theorem handlePhotoDelete_clears_id (i : string) (s : AppState) :
  (forall staged, stagedPhoto s = Some staged -> id staged = i ->
     stagedPhoto (handlePhotoDelete i s) = None
     /\ photos (handlePhotoDelete i s) = photos s)
  /\ (holds i (slot s) = false ->
      stagedPhoto (handlePhotoDelete i s) = stagedPhoto s
      /\ photos (handlePhotoDelete i s)
         = filter (fun p => negb (String.eqb (id p) i)) (photos s)
      /\ holds i (photos (handlePhotoDelete i s)) = false)
  /\ holds i (slot (handlePhotoDelete i s)) = false
  /\ (forall p, In p (records s) -> id p <> i ->
        In p (records (handlePhotoDelete i s)))
  /\ (holds i (slot s) && holds i (photos s) = false ->
      holds i (slot (handlePhotoDelete i s)) = false
      /\ holds i (photos (handlePhotoDelete i s)) = false).
Proof.
  destruct (handlePhotoDelete_removes_from_holder i s) as (H1 & H2 & H3 & H4).
  split; [exact H1 | split; [exact H2 | split; [exact H3 | split]]].
  - exact H4.
  - intros Hfree. apply handlePhotoDelete_absent in Hfree.
    unfold records in Hfree. rewrite holds_app in Hfree.
    apply orb_false_iff in Hfree. exact Hfree.
Qed.

Lemma handlePhotoDelete_clears_id_witness :
  (stagedPhoto (handlePhotoDelete "a" staging) = None
   /\ photos (handlePhotoDelete "a" staging) = photos staging)
  /\ (stagedPhoto (handlePhotoDelete "b" staging) = stagedPhoto staging
      /\ photos (handlePhotoDelete "b" staging)
         = filter (fun p => negb (String.eqb (id p) "b")) (photos staging)
      /\ holds "b" (photos (handlePhotoDelete "b" staging)) = false)
  /\ (holds "a" (slot (handlePhotoDelete "a" staging)) = false
      /\ holds "a" (photos (handlePhotoDelete "a" staging)) = false).
Proof.
  split; [| split].
  - exact (proj1 (handlePhotoDelete_clears_id "a" staging)
             photo_a eq_refl eq_refl).
  - exact (proj1 (proj2 (handlePhotoDelete_clears_id "b" staging)) eq_refl).
  - exact (proj2 (proj2 (proj2 (proj2
             (handlePhotoDelete_clears_id "a" staging)))) eq_refl).
Defined.

(** C6, as stated, fails: when the staged photo and a placed photo carry the
    same id, [delete] empties the slot only, and the late caption patch finds
    the placed record. *)
Lemma late_caption_finds_collided_id :
  ~ (forall (s : AppState) (i c : string),
       holds i (records (updateCaption i c (handlePhotoDelete i s))) = false).
Proof.
  intros H. specialize (H collided "a" "Golden hour smiles").
  discriminate H.
Qed.

(** C6, amended.  Unless the id is held by the staged slot and by the placed
    collection at once, after [delete(id)] the caption patch for that id is a
    no-op, and no record with that id exists in the slot or in the placed
    collection. *)
Theorem late_caption_after_delete_is_noop (i c : string) (s : AppState) :
  holds i (slot s) && holds i (photos s) = false ->
  updateCaption i c (handlePhotoDelete i s) = handlePhotoDelete i s
  /\ holds i (records (updateCaption i c (handlePhotoDelete i s))) = false.
Proof.
  intros H. apply handlePhotoDelete_absent in H.
  assert (E : updateCaption i c (handlePhotoDelete i s)
              = handlePhotoDelete i s).
  { rewrite updateCaption_handlePhotoUpdate.
    apply handlePhotoUpdate_absent, H. }
  rewrite E. split; [reflexivity | exact H].
Qed.

Lemma late_caption_after_delete_is_noop_witness :
  updateCaption "a" "Golden hour smiles" (handlePhotoDelete "a" staging)
  = handlePhotoDelete "a" staging
  /\ holds "a"
       (records (updateCaption "a" "Golden hour smiles"
                   (handlePhotoDelete "a" staging))) = false.
Proof.
  exact (late_caption_after_delete_is_noop "a" "Golden hour smiles" staging
           eq_refl).
Defined.

(** ** Developing *)

Lemma spread_developed_fixed (p : PhotoData) :
  isDeveloping p = false -> spread p PhotoCard.developed = p.
Proof. destruct p; cbn. intros ->. reflexivity. Qed.

(** C9.  The develop transition [update(id, { isDeveloping: false })] is
    idempotent: applied twice it yields the state it yields applied once; on
    a state whose records with that id are already developed it changes
    nothing, and the card arms no timer for a developed photo. *)
Theorem develop_idempotent (i : string) (s : AppState) :
  handlePhotoUpdate i PhotoCard.developed
    (handlePhotoUpdate i PhotoCard.developed s)
  = handlePhotoUpdate i PhotoCard.developed s
  /\ ((forall p, In p (records s) -> id p = i -> isDeveloping p = false) ->
      handlePhotoUpdate i PhotoCard.developed s = s)
  /\ (forall p, isDeveloping p = false -> PhotoCard.developTimer p = None).
Proof.
  split; [| split].
  - apply AppState_ext.
    + rewrite !handlePhotoUpdate_status. reflexivity.
    + rewrite !handlePhotoUpdate_photos, map_map. apply map_ext.
      intros p. destruct (String.eqb (id p) i) eqn:E.
      * cbn [spread id override PhotoCard.developed Partial.id].
        rewrite E. reflexivity.
      * rewrite E. reflexivity.
    + rewrite !handlePhotoUpdate_stagedPhoto.
      destruct (stagedPhoto s) as [staged|]; [| reflexivity].
      destruct (String.eqb (id staged) i) eqn:E.
      * cbn [spread id override PhotoCard.developed Partial.id].
        rewrite E. reflexivity.
      * rewrite E. reflexivity.
  - intros Hdev. apply AppState_ext.
    + apply handlePhotoUpdate_status.
    + rewrite handlePhotoUpdate_photos.
      rewrite <- (map_id (photos s)) at 2. apply map_ext_in.
      intros p Hp. destruct (String.eqb_spec (id p) i) as [E | _];
        [| reflexivity].
      apply spread_developed_fixed, Hdev; [| exact E].
      unfold records. apply in_or_app. right. exact Hp.
    + rewrite handlePhotoUpdate_stagedPhoto.
      destruct (stagedPhoto s) as [staged|] eqn:Hs; [| reflexivity].
      destruct (String.eqb_spec (id staged) i) as [E | _]; [| reflexivity].
      rewrite spread_developed_fixed; [reflexivity |].
      apply Hdev; [| exact E].
      unfold records, slot. rewrite Hs. left. reflexivity.
  - intros p Hp. unfold PhotoCard.developTimer. rewrite Hp. reflexivity.
Qed.

Lemma develop_idempotent_witness :
  handlePhotoUpdate "b" PhotoCard.developed staging = staging.
Proof.
  apply (proj1 (proj2 (develop_idempotent "b" staging))).
  intros p [<- | [<- | []]] E; [discriminate E | reflexivity].
Defined.

(** ** Frame: records with another id *)

Lemma Forall2_impl_weak {A} (P Q : A -> A -> Prop) (l l' : list A) :
  (forall a b, P a b -> Q a b) -> Forall2 P l l' -> Forall2 Q l l'.
Proof.
  intros HPQ H. induction H; constructor; auto.
Qed.

Lemma filter_other_app_matching (i : string) (l : list PhotoData)
  (p : PhotoData) :
  id p = i -> filter (other i) (l ++ [p]) = filter (other i) l.
Proof.
  intros <-. rewrite filter_app. cbn [filter]. unfold other at 2.
  rewrite String.eqb_refl. cbn [negb]. apply app_nil_r.
Qed.

(** C10.  [update(id, p)], [delete(id)] and [place(id, pos)] leave every
    record with another id as it is.  After [update] the placed collection
    has, position by position, the same record wherever the id differs;
    after [delete] and [place] the placed records with another id are the
    same, in the same order; a staged photo with another id stays staged,
    unchanged. *)
Theorem other_ids_untouched (i : string) (s : AppState) :
  (forall updates,
     Forall2 (fun p p' => id p <> i -> p' = p)
       (photos s) (photos (handlePhotoUpdate i updates s)))
  /\ (forall text,
        Forall2 (fun p p' => id p <> i -> p' = p)
          (photos s) (photos (updateCaption i text s)))
  /\ filter (fun p => negb (String.eqb (id p) i))
       (photos (handlePhotoDelete i s))
     = filter (fun p => negb (String.eqb (id p) i)) (photos s)
  /\ (forall point,
        filter (fun p => negb (String.eqb (id p) i))
          (photos (handleDragRelease i point s))
        = filter (fun p => negb (String.eqb (id p) i)) (photos s))
  /\ (forall staged, stagedPhoto s = Some staged -> id staged <> i ->
        (forall updates,
           stagedPhoto (handlePhotoUpdate i updates s) = Some staged)
        /\ (forall text, stagedPhoto (updateCaption i text s) = Some staged)
        /\ stagedPhoto (handlePhotoDelete i s) = Some staged
        /\ (forall point,
              stagedPhoto (handleDragRelease i point s) = Some staged)).
Proof.
  assert (Hupd : forall updates,
             Forall2 (fun p p' => id p <> i -> p' = p)
               (photos s) (photos (handlePhotoUpdate i updates s))).
  { intros updates. rewrite handlePhotoUpdate_photos.
    apply Forall2_impl_weak with (2 := map_patch_Forall2 i _ (photos s)).
    intros a b [_ H]. exact H. }
  split; [exact Hupd | split; [| split; [| split]]].
  - intros text. rewrite updateCaption_handlePhotoUpdate. apply Hupd.
  - unfold handlePhotoDelete.
    destruct (stagedPhoto s) as [staged|];
      [destruct (String.eqb (id staged) i) |];
      cbn [setStagedPhoto setPhotos photos];
      [reflexivity | |]; apply filter_other_idempotent.
  - intros point. unfold handleDragRelease.
    destruct (stagedPhoto s) as [staged|]; [| reflexivity].
    destruct (String.eqb_spec (id staged) i) as [E | _]; [| reflexivity].
    cbn [setStagedPhoto setPhotos photos].
    apply (filter_other_app_matching i). exact E.
  - intros staged Hs Hne. apply String.eqb_neq in Hne.
    assert (Hst : forall updates,
               stagedPhoto (handlePhotoUpdate i updates s) = Some staged).
    { intros updates.
      rewrite handlePhotoUpdate_stagedPhoto, Hs, Hne. reflexivity. }
    split; [exact Hst | split; [| split]].
    + intros text. rewrite updateCaption_handlePhotoUpdate. apply Hst.
    + unfold handlePhotoDelete. rewrite Hs, Hne. exact Hs.
    + intros point. unfold handleDragRelease. rewrite Hs, Hne. exact Hs.
Qed.

Lemma other_ids_untouched_witness :
  stagedPhoto (handlePhotoDelete "b" staging) = Some photo_a
  /\ forall point,
       stagedPhoto (handleDragRelease "b" point staging) = Some photo_a.
Proof.
  pose proof (proj2 (proj2 (proj2 (proj2 (other_ids_untouched "b" staging))))
                photo_a eq_refl) as H.
  assert (Hne : id photo_a <> "b") by discriminate.
  exact (proj2 (proj2 (H Hne))).
Defined.

(** ** Capturing: [takePhoto] *)

Lemma takePhoto_rejected (env : CaptureEnv) (s : AppState) :
  stagedPhoto s <> None -> takePhoto env s = s.
Proof.
  intros Hs. unfold takePhoto.
  destruct (stagedPhoto s); [| contradiction].
  cbn [isSome]. rewrite orb_true_r. reflexivity.
Qed.

Lemma takePhoto_stagedPhoto (env : CaptureEnv) (s : AppState) :
  stagedPhoto (takePhoto env s) = stagedPhoto s
  \/ exists imageData,
       stagedPhoto s = None
       /\ stagedPhoto (takePhoto env s) = Some (newPhoto env imageData).
Proof.
  unfold takePhoto.
  destruct (negb (AppStatus_eqb (status s) CAMERA_READY)); cbn [orb];
    [left; reflexivity |].
  destruct (stagedPhoto s) as [staged|] eqn:Hs; cbn [isSome];
    [left; exact Hs |].
  destruct (videoRef env) as [video|]; [| left; exact Hs].
  destruct (canvasRef env) as [canvas|]; [| left; exact Hs].
  destruct (getContext canvas); [| left; exact Hs].
  right. exists (toDataURL canvas (cropRegion64 video)).
  split; reflexivity.
Qed.

Lemma takePhoto_photos (env : CaptureEnv) (s : AppState) :
  photos (takePhoto env s) = photos s.
Proof.
  unfold takePhoto.
  destruct (negb (AppStatus_eqb (status s) CAMERA_READY) ||
            isSome (stagedPhoto s)); [reflexivity |].
  destruct (videoRef env) as [video|]; [| reflexivity].
  destruct (canvasRef env) as [canvas|]; [| reflexivity].
  destruct (getContext canvas); reflexivity.
Qed.

(** C8.  A capture that goes through (camera ready, slot empty, video,
    canvas and drawing context at hand) stages a record, and every record a
    capture puts into the slot has [isDeveloping = true], [isStaged = true]
    and an empty caption. *)
Theorem takePhoto_creates_developing_staged (env : CaptureEnv)
  (s : AppState) :
  (forall video canvas,
     status s = CAMERA_READY -> stagedPhoto s = None ->
     videoRef env = Some video -> canvasRef env = Some canvas ->
     getContext canvas = true ->
     stagedPhoto (takePhoto env s)
     = Some (newPhoto env (toDataURL canvas (cropRegion64 video))))
  /\ (forall p,
        stagedPhoto s = None -> stagedPhoto (takePhoto env s) = Some p ->
        isDeveloping p = true /\ isStaged p = true /\ caption p = ""
        /\ id p = generateId env).
Proof.
  split.
  - intros video canvas Hst Hs Hv Hc Hctx. unfold takePhoto.
    rewrite Hst, Hs, Hv, Hc, Hctx. reflexivity.
  - intros p Hs Hp.
    destruct (takePhoto_stagedPhoto env s) as [E | [imageData [_ E]]];
      rewrite E in Hp; [congruence |].
    injection Hp as <-. repeat split.
Qed.

Lemma takePhoto_creates_developing_staged_witness :
  stagedPhoto (takePhoto sample_env idle_wall)
  = Some (newPhoto sample_env
            (toDataURL sample_canvas (cropRegion64 hd_frame))).
Proof.
  exact (proj1 (takePhoto_creates_developing_staged sample_env idle_wall)
           hd_frame sample_canvas eq_refl eq_refl eq_refl eq_refl eq_refl).
Defined.

(** ** At most one staged photo *)

Lemma flags_agree_handlePhotoUpdate (i : string) (updates : Partial.t)
  (s : AppState) :
  Partial.isStaged updates = None ->
  flags_agree s -> flags_agree (handlePhotoUpdate i updates s).
Proof.
  intros Hu [Hslot Hph]. split.
  - intros p. rewrite handlePhotoUpdate_stagedPhoto.
    destruct (stagedPhoto s) as [staged|]; [| discriminate].
    specialize (Hslot staged eq_refl).
    destruct (String.eqb (id staged) i); intros [= <-]; [| exact Hslot].
    cbn [spread isStaged]. rewrite Hu. exact Hslot.
  - rewrite handlePhotoUpdate_photos. apply Forall_map.
    apply Forall_impl with (2 := Hph). intros p Hp.
    destruct (String.eqb (id p) i); [| exact Hp].
    cbn [spread isStaged]. rewrite Hu. exact Hp.
Qed.

Lemma flags_agree_step (e : Event) (s : AppState) :
  issued e -> flags_agree s -> flags_agree (step e s).
Proof.
  intros He Hs. destruct e as [granted | env | pid text | [i u | i | i pt]];
    cbn [step dispatch].
  - destruct granted; exact Hs.
  - destruct Hs as [Hslot Hph]. split.
    + intros p Hp.
      destruct (takePhoto_stagedPhoto env s) as [E | [img [_ E]]];
        rewrite E in Hp; [exact (Hslot p Hp) |].
      injection Hp as <-. reflexivity.
    + rewrite takePhoto_photos. exact Hph.
  - rewrite updateCaption_handlePhotoUpdate.
    apply flags_agree_handlePhotoUpdate; [reflexivity | exact Hs].
  - apply flags_agree_handlePhotoUpdate; [| exact Hs].
    destruct He as [-> | [text ->]]; reflexivity.
  - destruct Hs as [Hslot Hph].
    assert (Hfil : Forall (fun p => isStaged p = false)
                     (filter (fun p => negb (String.eqb (id p) i))
                        (photos s))).
    { apply Forall_forall. intros p Hp. apply filter_In in Hp.
      exact (proj1 (Forall_forall _ _) Hph p (proj1 Hp)). }
    unfold handlePhotoDelete.
    destruct (stagedPhoto s) as [staged|] eqn:E;
      [destruct (String.eqb (id staged) i) |]; split;
      cbn [setStagedPhoto setPhotos stagedPhoto photos].
    + intros p Hp. discriminate Hp.
    + exact Hph.
    + rewrite E. exact Hslot.
    + exact Hfil.
    + rewrite E. intros p Hp. discriminate Hp.
    + exact Hfil.
  - destruct Hs as [Hslot Hph]. unfold handleDragRelease.
    destruct (stagedPhoto s) as [staged|] eqn:E;
      [destruct (String.eqb (id staged) i) |]; split;
      cbn [setStagedPhoto setPhotos stagedPhoto photos].
    + intros p Hp. discriminate Hp.
    + apply Forall_app. split; [exact Hph |].
      constructor; [reflexivity | constructor].
    + rewrite E. exact Hslot.
    + exact Hph.
    + rewrite E. intros p Hp. discriminate Hp.
    + exact Hph.
Qed.

Lemma flags_agree_reachable (s : AppState) :
  reachable_by issued s -> flags_agree s.
Proof.
  induction 1 as [| e s He _ IH].
  - split; [discriminate | constructor].
  - apply flags_agree_step; assumption.
Qed.

Lemma filter_isStaged_none (l : list PhotoData) :
  Forall (fun p => isStaged p = false) l -> filter isStaged l = [].
Proof.
  induction 1 as [| p l Hp _ IH]; cbn [filter]; [reflexivity |].
  rewrite Hp. exact IH.
Qed.

(** C2.  In every state reachable from the initial state by camera start,
    capture, caption resolution, update, delete and place, the staged slot
    holds at most one photo, and a capture attempted while the slot is
    occupied is rejected: it leaves the state, hence the slot and the placed
    collection, unchanged.  When the updates are those the cards send
    (develop and caption patches), the records flagged as staged in the whole
    store are exactly the occupant of the slot, so there is at most one. *)
Theorem at_most_one_staged (s : AppState) :
  (reachable s ->
     (List.length (slot s) <= 1)%nat
     /\ (forall env, stagedPhoto s <> None ->
           takePhoto env s = s
           /\ stagedPhoto (takePhoto env s) = stagedPhoto s
           /\ photos (takePhoto env s) = photos s))
  /\ (reachable_by issued s ->
        filter isStaged (records s) = slot s
        /\ (List.length (filter isStaged (records s)) <= 1)%nat).
Proof.
  assert (Hlen : (List.length (slot s) <= 1)%nat).
  { unfold slot. destruct (stagedPhoto s); cbn [List.length]; lia. }
  split.
  - intros _. split; [exact Hlen |].
    intros env Hs. rewrite (takePhoto_rejected env s Hs).
    repeat split.
  - intros Hr. apply flags_agree_reachable in Hr. destruct Hr as [Hslot Hph].
    assert (E : filter isStaged (records s) = slot s).
    { unfold records. rewrite filter_app, (filter_isStaged_none _ Hph).
      rewrite app_nil_r. unfold slot.
      destruct (stagedPhoto s) as [p|]; [| reflexivity].
      cbn [filter]. rewrite (Hslot p eq_refl). reflexivity. }
    rewrite E. split; [reflexivity | exact Hlen].
Qed.

Lemma at_most_one_staged_witness :
  reachable (run [CameraStarted true; Shutter sample_env] initialState)
  /\ (List.length
        (slot (run [CameraStarted true; Shutter sample_env] initialState))
      <= 1)%nat
  /\ takePhoto sample_env
       (run [CameraStarted true; Shutter sample_env] initialState)
     = run [CameraStarted true; Shutter sample_env] initialState
  /\ filter isStaged
       (records (run [CameraStarted true; Shutter sample_env] initialState))
     = slot (run [CameraStarted true; Shutter sample_env] initialState).
Proof.
  assert (Hr : forall allowed : Event -> Prop,
             allowed (CameraStarted true) -> allowed (Shutter sample_env) ->
             reachable_by allowed
               (run [CameraStarted true; Shutter sample_env] initialState)).
  { intros allowed H1 H2.
    exact (reachable_step allowed _ _ H2
             (reachable_step allowed _ _ H1 (reachable_initial allowed))). }
  split; [exact (Hr _ I I) |].
  destruct (proj1 (at_most_one_staged _) (Hr _ I I)) as [Hlen Hguard].
  split; [exact Hlen |].
  split; [apply Hguard; discriminate |].
  exact (proj1 (proj2 (at_most_one_staged _) (Hr issued I I))).
Defined.

(** ** The caption adapter *)

Import GeminiService.

(** C5, as stated, fails: no single string is returned on every failure.
    A call that raises yields one string, a response without text another. *)
Lemma no_single_fallback_string :
  ~ (exists fallback : string,
       forall generateContent navigator_language base64Image,
         failed (generateContent (request navigator_language base64Image)) ->
         generatePhotoCaption generateContent navigator_language base64Image
         = Ok fallback).
Proof.
  intros [fallback H].
  pose proof (H unreachable_service None (imageData photo_a) I) as H1.
  pose proof (H silent_service None (imageData photo_a)
                (or_introl eq_refl)) as H2.
  cbv in H1, H2. congruence.
Qed.

(** C5, amended.  For every image the adapter returns a string and never
    raises.  When the service raises it returns the fixed string
    "Captured in time."; when the response has no text or an empty text it
    returns the fixed string "A beautiful moment..."; otherwise it returns
    the text of the response. *)
Theorem generatePhotoCaption_never_raises
  (generateContent : GenerateContentParameters
                     -> result GenerateContentResponse)
  (navigator_language : option string) (base64Image : string) :
  (exists text,
     generatePhotoCaption generateContent navigator_language base64Image
     = Ok text)
  /\ (forall error,
        generateContent (request navigator_language base64Image)
        = Throw error ->
        generatePhotoCaption generateContent navigator_language base64Image
        = Ok "Captured in time.")
  /\ (forall response,
        generateContent (request navigator_language base64Image)
        = Ok response ->
        response_text response = None \/ response_text response = Some "" ->
        generatePhotoCaption generateContent navigator_language base64Image
        = Ok "A beautiful moment...")
  /\ (forall response text,
        generateContent (request navigator_language base64Image)
        = Ok response ->
        response_text response = Some text -> text <> "" ->
        generatePhotoCaption generateContent navigator_language base64Image
        = Ok text).
Proof.
  unfold generatePhotoCaption.
  destruct (generateContent (request navigator_language base64Image))
    as [response | error]; cbn [bind try_catch].
  - split; [eexists; reflexivity |].
    split; [intros e [=] |].
    split.
    + intros r [= <-] [-> | ->]; reflexivity.
    + intros r text [= <-] -> Hne. cbn [or_else].
      rewrite (proj2 (String.eqb_neq _ _) Hne). reflexivity.
  - split; [eexists; reflexivity |].
    split; [reflexivity |].
    split; intros; discriminate.
Qed.

Lemma generatePhotoCaption_never_raises_witness :
  generatePhotoCaption unreachable_service None (imageData photo_a)
  = Ok "Captured in time."
  /\ generatePhotoCaption silent_service None (imageData photo_a)
     = Ok "A beautiful moment...".
Proof.
  split.
  - exact (proj1 (proj2 (generatePhotoCaption_never_raises
                           unreachable_service None (imageData photo_a)))
             "Failed to fetch" eq_refl).
  - exact (proj1 (proj2 (proj2 (generatePhotoCaption_never_raises
                                  silent_service None (imageData photo_a))))
             {| response_text := None |} eq_refl (or_introl eq_refl)).
Defined.

(** ** What the cards send *)

(** The updates a card sends are develop and caption patches: the events of
    a session satisfy [issued]. *)
Lemma card_updates_issued (photo : PhotoData) (text : string) :
  (forall call, PhotoCard.developTimer photo = Some call ->
     issued (Card call))
  /\ issued (Card (PhotoCard.saveEdit photo text))
  /\ issued (Card (PhotoCard.handleRegenerateCaption photo text)).
Proof.
  split; [| split].
  - unfold PhotoCard.developTimer. intros call.
    destruct (isDeveloping photo); [| discriminate].
    intros [= <-]. left. reflexivity.
  - right. exists text. reflexivity.
  - right. exists text. reflexivity.
Qed.

(** Only a staged card releases a drag to [handleDragRelease], and it names
    its own id. *)
Lemma handleDragEnd_staged_only (photo : PhotoData) (hasDragRelease : bool)
  (rect : option Position) (call : Call) :
  PhotoCard.handleDragEnd photo hasDragRelease rect = Some call ->
  isStaged photo = true
  /\ exists point, call = onDragRelease (id photo) point.
Proof.
  unfold PhotoCard.handleDragEnd.
  destruct (isStaged photo); [| discriminate].
  destruct hasDragRelease; [| discriminate].
  destruct rect as [r|]; [| discriminate].
  intros [= <-]. split; [reflexivity | eexists; reflexivity].
Qed.

(** The scenario of the specification: capture, then the develop timer
    fires (the photo is developed, its caption still empty), then the caption
    service resolves and the caption is set in place. *)
Example capture_develop_caption :
  exists staged call,
    stagedPhoto (run [CameraStarted true; Shutter sample_env] initialState)
    = Some staged
    /\ PhotoCard.developTimer staged = Some call
    /\ exists developed,
         stagedPhoto
           (run [CameraStarted true; Shutter sample_env; Card call]
              initialState) = Some developed
         /\ isDeveloping developed = false
         /\ caption developed = ""
         /\ stagedPhoto
              (takePhoto_resume (id staged)
                 (generatePhotoCaption warm_service (Some "en-GB")
                    (imageData staged))
                 (run [CameraStarted true; Shutter sample_env; Card call]
                    initialState))
            = Some (with_caption developed "Golden hour smiles").
Proof.
  eexists. eexists. split; [reflexivity |]. split; [reflexivity |].
  eexists. split; [reflexivity |]. repeat split.
Qed.

(** * Further properties *)

(** ** The crop region inside the frame *)


Lemma num_scaled_lt (w h : N) :
  (3 * h < 4 * w)%N -> 3 * num h < 4 * num w.
Proof.
  intros H. unfold num, Qlt, Qmult, inject_Z. cbn [Qnum Qden]. lia.
Qed.







(** ** The tilt of a captured photo *)



(** ** The mirrored drawing *)




(** ** A camera that is not ready *)

Lemma dispatch_status (call : Call) (s : AppState) :
  status (dispatch call s) = status s.
Proof.
  destruct call as [i u | i | i pt]; cbn [dispatch].
  - apply handlePhotoUpdate_status.
  - unfold handlePhotoDelete.
    destruct (stagedPhoto s) as [staged|];
      [destruct (String.eqb (id staged) i) |]; reflexivity.
  - unfold handleDragRelease.
    destruct (stagedPhoto s) as [staged|];
      [destruct (String.eqb (id staged) i) |]; reflexivity.
Qed.

Lemma takePhoto_not_ready (env : CaptureEnv) (s : AppState) :
  status s <> CAMERA_READY -> takePhoto env s = s.
Proof.
  intros H. unfold takePhoto.
  destruct (status s); try contradiction; reflexivity.
Qed.

(** How many records a call of a card leaves: as many, or fewer after a
    delete. *)
Lemma dispatch_records_length (call : Call) (s : AppState) :
  (List.length (records (dispatch call s)) <= List.length (records s))%nat
  /\ match call with
     | onDelete _ => True
     | _ => List.length (records (dispatch call s))
            = List.length (records s)
     end.
Proof.
  destruct s as [st ph staged]. unfold records, slot.
  destruct call as [i u | i | i pt]; cbn [dispatch].
  - unfold handlePhotoUpdate. cbn [stagedPhoto].
    destruct staged as [staged|];
      [destruct (String.eqb (id staged) i) |];
      cbn [setStagedPhoto setPhotos stagedPhoto photos];
      rewrite !length_app, length_map; split; reflexivity.
  - unfold handlePhotoDelete. cbn [stagedPhoto].
    pose proof (filter_length_le
                  (fun p => negb (String.eqb (id p) i)) ph) as Hle.
    destruct staged as [staged|];
      [destruct (String.eqb (id staged) i) |];
      cbn [setStagedPhoto setPhotos stagedPhoto photos];
      rewrite !length_app; cbn [List.length]; split; try exact I; lia.
  - unfold handleDragRelease. cbn [stagedPhoto].
    destruct staged as [staged|];
      [destruct (String.eqb (id staged) i) |];
      cbn [setStagedPhoto setPhotos stagedPhoto photos];
      rewrite ?length_app; cbn [List.length]; split; lia.
Qed.

Lemma dispatch_keeps_slot_empty (call : Call) (s : AppState) :
  stagedPhoto s = None -> stagedPhoto (dispatch call s) = None.
Proof.
  intros Hs. destruct call as [i u | i | i pt]; cbn [dispatch].
  - rewrite handlePhotoUpdate_stagedPhoto, Hs. reflexivity.
  - unfold handlePhotoDelete. rewrite Hs. exact Hs.
  - unfold handleDragRelease. rewrite Hs. exact Hs.
Qed.

(** One event on a state whose camera is not ready, the event not being a
    successful camera start: the camera stays not ready, an empty slot stays
    empty and no record is added. *)
Lemma step_not_ready (e : Event) (s : AppState) :
  status s <> CAMERA_READY -> grants e = false ->
  status (step e s) <> CAMERA_READY
  /\ (startsCamera e = false -> status (step e s) = status s)
  /\ (stagedPhoto s = None -> stagedPhoto (step e s) = None)
  /\ (List.length (records (step e s)) <= List.length (records s))%nat.
Proof.
  intros Hst Hg.
  destruct e as [granted | env | pid text | call]; cbn [step].
  - cbn [grants] in Hg. subst granted.
    repeat split; auto; discriminate.
  - rewrite (takePhoto_not_ready env s Hst). repeat split; auto.
  - rewrite updateCaption_handlePhotoUpdate.
    change (handlePhotoUpdate pid (PhotoCard.captioned text) s)
      with (dispatch (onUpdate pid (PhotoCard.captioned text)) s).
    rewrite dispatch_status.
    split; [exact Hst | split; [reflexivity | split]].
    + apply dispatch_keeps_slot_empty.
    + apply dispatch_records_length.
  - rewrite dispatch_status.
    split; [exact Hst | split; [reflexivity | split]].
    + apply dispatch_keeps_slot_empty.
    + apply dispatch_records_length.
Qed.

Lemma run_not_ready (events : list Event) (s : AppState) :
  status s <> CAMERA_READY ->
  Forall (fun e => grants e = false) events ->
  status (run events s) <> CAMERA_READY
  /\ (Forall (fun e => startsCamera e = false) events ->
      status (run events s) = status s)
  /\ (stagedPhoto s = None -> stagedPhoto (run events s) = None)
  /\ (List.length (records (run events s)) <= List.length (records s))%nat.
Proof.
  intros Hst Hev. revert s Hst.
  induction Hev as [| e events He _ IH]; intros s Hst.
  - cbn. repeat split; auto.
  - destruct (step_not_ready e s Hst He) as (H1 & H2 & H3 & H4).
    destruct (IH (step e s) H1) as (I1 & I2 & I3 & I4).
    change (run (e :: events) s) with (run events (step e s)).
    split; [exact I1 | split; [| split]].
    + intros Hc. inversion Hc as [| ? ? Hc1 Hc2]; subst.
      rewrite (I2 Hc2). apply H2, Hc1.
    + intros Hs. apply I3, H3, Hs.
    + lia.
Qed.

(** X4.  Without a granted camera no photo is ever taken: after any events
    among which no camera start succeeds, the status is not
    [CAMERA_READY], the staged slot is empty and the wall is empty. *)
Theorem no_camera_no_photo (events : list Event) :
  Forall (fun e => grants e = false) events ->
  status (run events initialState) <> CAMERA_READY
  /\ stagedPhoto (run events initialState) = None
  /\ photos (run events initialState) = []
  /\ viewfinderOverlay (run events initialState) <> None.
Proof.
  intros Hev.
  assert (H0 : status initialState <> CAMERA_READY) by discriminate.
  destruct (run_not_ready events initialState H0 Hev) as (H1 & _ & H3 & H4).
  specialize (H3 eq_refl).
  split; [exact H1 | split; [exact H3 | split]].
  - unfold records, slot in H4. rewrite H3 in H4. cbn in H4.
    destruct (photos (run events initialState)); [reflexivity |].
    cbn in H4. lia.
  - unfold viewfinderOverlay.
    destruct (status (run events initialState)); try discriminate.
    contradiction.
Qed.

Lemma no_camera_no_photo_witness :
  stagedPhoto
    (run [CameraStarted false; Shutter sample_env;
          CaptionResolved "a" "Golden hour smiles"] initialState) = None
  /\ photos
       (run [CameraStarted false; Shutter sample_env;
             CaptionResolved "a" "Golden hour smiles"] initialState) = [].
Proof.
  assert (H : Forall (fun e => grants e = false)
                [CameraStarted false; Shutter sample_env;
                 CaptionResolved "a" "Golden hour smiles"]).
  { repeat constructor. }
  destruct (no_camera_no_photo _ H) as (_ & H1 & H2 & _).
  split; assumption.
Defined.

(** X5.  A capture that finds no video element, no canvas or no drawing
    context leaves the status at [TAKING_PHOTO] and stages nothing.  From
    then on, as long as the camera is not started again, every event leaves
    the status there: each further capture is rejected, the flash overlay
    stays, the viewfinder shows "Loading..." and no record is added. *)
Theorem takePhoto_without_surface_sticks (env : CaptureEnv) (s : AppState)
  (events : list Event) :
  status s = CAMERA_READY -> stagedPhoto s = None ->
  (videoRef env = None \/ canvasRef env = None
   \/ exists canvas, canvasRef env = Some canvas
                     /\ getContext canvas = false) ->
  Forall (fun e => startsCamera e = false) events ->
  takePhoto env s = setStatus TAKING_PHOTO s
  /\ status (run events (takePhoto env s)) = TAKING_PHOTO
  /\ flashOverlay (run events (takePhoto env s)) = true
  /\ viewfinderOverlay (run events (takePhoto env s)) = Some "Loading..."
  /\ stagedPhoto (run events (takePhoto env s)) = None
  /\ (forall env',
        takePhoto env' (run events (takePhoto env s))
        = run events (takePhoto env s))
  /\ (List.length (records (run events (takePhoto env s)))
      <= List.length (records s))%nat.
Proof.
  intros Hst Hs Hmiss Hev.
  assert (E : takePhoto env s = setStatus TAKING_PHOTO s).
  { unfold takePhoto. rewrite Hst, Hs. cbn [AppStatus_eqb negb orb isSome].
    destruct Hmiss as [-> | [Hc | [canvas [-> Hctx]]]].
    - reflexivity.
    - rewrite Hc. destruct (videoRef env); reflexivity.
    - rewrite Hctx. destruct (videoRef env); reflexivity. }
  rewrite E.
  assert (H0 : status (setStatus TAKING_PHOTO s) <> CAMERA_READY)
    by discriminate.
  assert (Hg : Forall (fun e => grants e = false) events).
  { apply Forall_impl with (2 := Hev). intros e.
    destruct e; cbn; congruence. }
  destruct (run_not_ready events _ H0 Hg) as (_ & H2 & H3 & H4).
  specialize (H2 Hev). specialize (H3 Hs). cbn [setStatus status] in H2.
  split; [reflexivity |].
  split; [exact H2 |].
  split; [unfold flashOverlay; rewrite H2; reflexivity |].
  split; [unfold viewfinderOverlay; rewrite H2; reflexivity |].
  split; [exact H3 |].
  split; [| exact H4].
  intros env'. apply takePhoto_not_ready. rewrite H2. discriminate.
Qed.

Lemma takePhoto_without_surface_sticks_witness :
  takePhoto blind_env idle_wall = setStatus TAKING_PHOTO idle_wall
  /\ status (run [Shutter sample_env; Card (onDelete "b")]
               (takePhoto blind_env idle_wall)) = TAKING_PHOTO
  /\ flashOverlay (run [Shutter sample_env; Card (onDelete "b")]
                     (takePhoto blind_env idle_wall)) = true.
Proof.
  assert (H : Forall (fun e => startsCamera e = false)
                [Shutter sample_env; Card (onDelete "b")]).
  { repeat constructor. }
  destruct (takePhoto_without_surface_sticks blind_env idle_wall _
              eq_refl eq_refl (or_intror (or_introl eq_refl)) H)
    as (H1 & H2 & H3 & _).
  repeat split; assumption.
Defined.

(** ** The caption that reaches the store *)

Lemma or_else_not_empty (a : option string) (b : string) :
  b <> "" -> or_else a b <> "".
Proof.
  intros Hb. unfold or_else. destruct a as [t|]; [| exact Hb].
  destruct (String.eqb_spec t ""); assumption.
Qed.

(** X6.  The adapter never returns an empty caption, whatever the service
    does; hence the continuation of [takePhoto] always patches a non-empty
    caption in, and its [catch] branch is never taken. *)
Theorem generatePhotoCaption_not_empty
  (generateContent : GenerateContentParameters
                     -> result GenerateContentResponse)
  (navigator_language : option string) (base64Image : string) :
  exists text,
    generatePhotoCaption generateContent navigator_language base64Image
    = Ok text
    /\ text <> ""
    /\ forall newId s,
         takePhoto_resume newId
           (generatePhotoCaption generateContent navigator_language
              base64Image) s
         = updateCaption newId text s.
Proof.
  unfold generatePhotoCaption.
  destruct (generateContent (request navigator_language base64Image))
    as [response | error]; cbn [bind try_catch].
  - eexists. split; [reflexivity |]. split; [| reflexivity].
    apply or_else_not_empty. discriminate.
  - eexists. split; [reflexivity |]. split; [discriminate | reflexivity].
Qed.

(** ** The data URL header *)

Lemma strip_prefix_app (p s : string) : strip_prefix p (p ++ s) = Some s.
Proof.
  induction p as [| a p IH]; cbn; [reflexivity |].
  rewrite Ascii.eqb_refl. exact IH.
Qed.

Lemma strip_prefix_Some (p s rest : string) :
  strip_prefix p s = Some rest -> s = p ++ rest.
Proof.
  revert s. induction p as [| a p IH]; intros s; cbn.
  - intros [= ->]. reflexivity.
  - destruct s as [| b s]; [discriminate |].
    destruct (Ascii.eqb_spec a b) as [-> | _]; [| discriminate].
    intros H. rewrite (IH s H). reflexivity.
Qed.

(** X7.  The image sent to the service carries no data URL header: a payload
    behind any of the four accepted headers (png, jpg, jpeg, webp) is sent
    bare, and whatever the input, what is sent is the input itself or the
    input without one such header in front. *)
Theorem request_data_without_header (navigator_language : option string)
  (base64Image : string) :
  (forall header payload,
     In header headers -> base64Image = header ++ payload ->
     data (inlineData (request navigator_language base64Image)) = payload)
  /\ (data (inlineData (request navigator_language base64Image))
      = base64Image
      \/ exists header,
           In header headers
           /\ base64Image
              = header
                ++ data (inlineData (request navigator_language base64Image))).
Proof.
  cbn [request data inlineData]. split.
  - intros header payload Hin ->.
    cbn [headers In] in Hin.
    destruct Hin as [<- | [<- | [<- | [<- | []]]]]; reflexivity.
  - unfold headers. cbn [replace_header].
    repeat match goal with
           | |- context [strip_prefix ?h base64Image] =>
               let E := fresh "E" in
               destruct (strip_prefix h base64Image) eqn:E;
               [right; exists h; split;
                [cbn [headers In]; tauto | apply strip_prefix_Some, E] |]
           end.
    left. reflexivity.
Qed.

Lemma request_data_without_header_witness :
  data (inlineData (request None (imageData photo_a))) = "iVBORw0KGgo=".
Proof.
  exact (proj1 (request_data_without_header None (imageData photo_a))
           "data:image/png;base64," "iVBORw0KGgo="
           (or_introl eq_refl) eq_refl).
Defined.

(** ** The develop timer fires once *)

Lemma In_records_handlePhotoUpdate (i : string) (updates : Partial.t)
  (s : AppState) (p' : PhotoData) :
  In p' (records (handlePhotoUpdate i updates s)) ->
  exists p,
    In p (records s)
    /\ p' = if String.eqb (id p) i then spread p updates else p.
Proof.
  unfold records, slot. rewrite handlePhotoUpdate_stagedPhoto,
    handlePhotoUpdate_photos.
  intros H. apply in_app_iff in H. destruct H as [H | H].
  - destruct (stagedPhoto s) as [staged|]; [| destruct H].
    exists staged. split; [left; reflexivity |].
    destruct (String.eqb (id staged) i); destruct H as [<- | []];
      reflexivity.
  - apply in_map_iff in H. destruct H as [p [<- Hp]].
    exists p. split; [apply in_or_app; right; exact Hp | reflexivity].
Qed.

(** X8.  Once the develop timer of a card has fired and its call has been
    handled, no record with the card's id is developing any more: a card
    rendered from the new state arms no further timer for that photo. *)
Theorem developTimer_fires_once (photo : PhotoData) (call : Call)
  (s : AppState) :
  PhotoCard.developTimer photo = Some call ->
  forall p', In p' (records (dispatch call s)) -> id p' = id photo ->
    isDeveloping p' = false /\ PhotoCard.developTimer p' = None.
Proof.
  unfold PhotoCard.developTimer at 1.
  destruct (isDeveloping photo); [| discriminate].
  intros [= <-] p' Hin Hid. cbn [dispatch] in Hin.
  apply In_records_handlePhotoUpdate in Hin. destruct Hin as [p [_ ->]].
  destruct (String.eqb_spec (id p) (id photo)) as [_ | Hne].
  - split; [reflexivity |]. unfold PhotoCard.developTimer. reflexivity.
  - contradiction.
Qed.

Lemma developTimer_fires_once_witness :
  In (spread photo_a PhotoCard.developed)
    (records (dispatch (onUpdate "a" PhotoCard.developed) staging))
  /\ isDeveloping (spread photo_a PhotoCard.developed) = false
  /\ PhotoCard.developTimer (spread photo_a PhotoCard.developed) = None.
Proof.
  assert (Hin : In (spread photo_a PhotoCard.developed)
                  (records (dispatch (onUpdate "a" PhotoCard.developed)
                              staging))).
  { left. reflexivity. }
  split; [exact Hin |].
  exact (developTimer_fires_once photo_a _ staging eq_refl _ Hin eq_refl).
Defined.

(** ** The order of the asynchronous patches *)

(** When [App] renders between the two calls, a patch that touches neither
    the id, nor the staged flag, nor the position commutes with placing. *)
Lemma patch_commutes_with_place (i j : string) (updates : Partial.t)
  (point : Position) (s : AppState) :
  Partial.id updates = None -> Partial.isStaged updates = None ->
  Partial.position updates = None ->
  handlePhotoUpdate i updates (handleDragRelease j point s)
  = handleDragRelease j point (handlePhotoUpdate i updates s).
Proof.
  intros Hid Hst Hpos. destruct s as [st ph staged].
  unfold handlePhotoUpdate, handleDragRelease.
  destruct staged as [staged|]; cbn [stagedPhoto]; [| reflexivity].
  assert (Hsame : id (spread staged updates) = id staged).
  { cbn [spread id]. rewrite Hid. reflexivity. }
  destruct (String.eqb (id staged) j) eqn:Ej;
    destruct (String.eqb (id staged) i) eqn:Ei;
    unfold setStagedPhoto, setPhotos; cbn [stagedPhoto photos status];
    rewrite ?Hsame, ?Ej, ?Ei; cbn [stagedPhoto photos status];
    try reflexivity.
  - f_equal. rewrite map_app. cbn [map id]. rewrite Ei. f_equal. f_equal.
    unfold spread. cbn [id imageData caption dateString timestamp
      isDeveloping isStaged position rotation].
    rewrite Hid, Hst, Hpos. reflexivity.
  - f_equal. rewrite map_app. cbn [map id]. rewrite Ei. reflexivity.
Qed.

(** When [App] renders between the two calls, the develop patch and a
    caption patch commute, for the same id or for different ids. *)
Lemma develop_commutes_with_caption (i j text : string) (s : AppState) :
  handlePhotoUpdate i PhotoCard.developed (updateCaption j text s)
  = updateCaption j text (handlePhotoUpdate i PhotoCard.developed s).
Proof.
  rewrite !updateCaption_handlePhotoUpdate.
  apply AppState_ext.
  - rewrite !handlePhotoUpdate_status. reflexivity.
  - rewrite !handlePhotoUpdate_photos, !map_map. apply map_ext.
    intros p.
    destruct (String.eqb (id p) j) eqn:Ej;
      destruct (String.eqb (id p) i) eqn:Ei;
      cbn [spread id override PhotoCard.developed PhotoCard.captioned
           Partial.id];
      rewrite ?Ej, ?Ei; reflexivity.
  - rewrite !handlePhotoUpdate_stagedPhoto.
    destruct (stagedPhoto s) as [p|]; [| reflexivity].
    destruct (String.eqb (id p) j) eqn:Ej;
      destruct (String.eqb (id p) i) eqn:Ei;
      cbn [spread id override PhotoCard.developed PhotoCard.captioned
           Partial.id];
      rewrite ?Ej, ?Ei; reflexivity.
Qed.

(** From the render of the state it is applied to, a handler with its
    closure made explicit is the handler. *)
Lemma handlers_from_rendered (i : string) (updates : Partial.t)
  (point : Position) (s : AppState) :
  handlePhotoUpdate_from (stagedPhoto s) i updates s
  = handlePhotoUpdate i updates s
  /\ handlePhotoDelete_from (stagedPhoto s) i s = handlePhotoDelete i s
  /\ handleDragRelease_from (stagedPhoto s) i point s
     = handleDragRelease i point s.
Proof. repeat split. Qed.

(** X9.  A caption that resolves while the photo is staged, followed by the
    release of the photo before [App] has rendered again: the release copies
    the staged photo of the last render, so the photo is placed with the
    caption it had then and the resolved caption is lost on it.  When [App]
    renders in between, or when the caption resolves after the release, the
    placed photo carries the resolved caption, and these two orders give the
    same state. *)
Theorem release_after_unrendered_caption (i text : string)
  (point : Position) (s : AppState) (staged : PhotoData) :
  stagedPhoto s = Some staged -> id staged = i ->
  (stagedPhoto
     (handleDragRelease_from (stagedPhoto s) i point
        (updateCaption i text s)) = None
   /\ photos
        (handleDragRelease_from (stagedPhoto s) i point
           (updateCaption i text s))
      = (photos (updateCaption i text s)
         ++ [ {| id := id staged;
                 imageData := imageData staged;
                 caption := caption staged;
                 dateString := dateString staged;
                 timestamp := timestamp staged;
                 isDeveloping := isDeveloping staged;
                 isStaged := false;
                 position := point;
                 rotation := rotation staged |} ])%list)
  /\ (stagedPhoto (handleDragRelease i point (updateCaption i text s)) = None
      /\ photos (handleDragRelease i point (updateCaption i text s))
         = (photos (updateCaption i text s)
            ++ [ {| id := id staged;
                    imageData := imageData staged;
                    caption := text;
                    dateString := dateString staged;
                    timestamp := timestamp staged;
                    isDeveloping := isDeveloping staged;
                    isStaged := false;
                    position := point;
                    rotation := rotation staged |} ])%list)
  /\ updateCaption i text (handleDragRelease i point s)
     = handleDragRelease i point (updateCaption i text s).
Proof.
  intros Hs <-. split; [| split].
  - unfold handleDragRelease_from. rewrite Hs, String.eqb_refl.
    split; reflexivity.
  - unfold handleDragRelease.
    rewrite updateCaption_handlePhotoUpdate.
    rewrite handlePhotoUpdate_stagedPhoto, Hs, String.eqb_refl.
    cbn [spread id override PhotoCard.captioned Partial.id].
    rewrite String.eqb_refl. split; reflexivity.
  - rewrite !updateCaption_handlePhotoUpdate.
    apply patch_commutes_with_place; reflexivity.
Qed.

Lemma release_after_unrendered_caption_witness :
  photos
    (handleDragRelease_from (stagedPhoto staging) "a" wall_point
       (updateCaption "a" "Golden hour smiles" staging))
  = [ photo_b;
      {| id := "a";
         imageData := imageData photo_a;
         caption := "";
         dateString := dateString photo_a;
         timestamp := timestamp photo_a;
         isDeveloping := isDeveloping photo_a;
         isStaged := false;
         position := wall_point;
         rotation := rotation photo_a |} ]
  /\ photos
       (handleDragRelease "a" wall_point
          (updateCaption "a" "Golden hour smiles" staging))
     = [ photo_b;
         {| id := "a";
            imageData := imageData photo_a;
            caption := "Golden hour smiles";
            dateString := dateString photo_a;
            timestamp := timestamp photo_a;
            isDeveloping := isDeveloping photo_a;
            isStaged := false;
            position := wall_point;
            rotation := rotation photo_a |} ].
Proof.
  destruct (release_after_unrendered_caption "a" "Golden hour smiles"
              wall_point staging photo_a eq_refl eq_refl)
    as ([_ H1] & [_ H2] & _).
  split; [exact H1 | exact H2].
Defined.

(** X10.  A caption that resolves for the staged photo, followed by the
    develop timer before [App] has rendered again: the timer's call writes
    the staged photo of the last render with [isDeveloping = false] over
    the queued caption, so the staged photo is developed and keeps the
    caption it had then; on the wall both patches always apply.  In the
    other order, or when [App] renders in between, the staged photo is
    developed and carries the resolved caption, and the two orders give the
    same state. *)
Theorem develop_after_unrendered_caption (i text : string) (s : AppState)
  (staged : PhotoData) :
  stagedPhoto s = Some staged -> id staged = i ->
  stagedPhoto
    (handlePhotoUpdate_from (stagedPhoto s) i PhotoCard.developed
       (updateCaption i text s))
  = Some {| id := id staged;
            imageData := imageData staged;
            caption := caption staged;
            dateString := dateString staged;
            timestamp := timestamp staged;
            isDeveloping := false;
            isStaged := isStaged staged;
            position := position staged;
            rotation := rotation staged |}
  /\ photos
       (handlePhotoUpdate_from (stagedPhoto s) i PhotoCard.developed
          (updateCaption i text s))
     = photos (updateCaption i text (handlePhotoUpdate i PhotoCard.developed s))
  /\ stagedPhoto
       (updateCaption i text (handlePhotoUpdate i PhotoCard.developed s))
     = Some {| id := id staged;
               imageData := imageData staged;
               caption := text;
               dateString := dateString staged;
               timestamp := timestamp staged;
               isDeveloping := false;
               isStaged := isStaged staged;
               position := position staged;
               rotation := rotation staged |}
  /\ handlePhotoUpdate i PhotoCard.developed (updateCaption i text s)
     = updateCaption i text (handlePhotoUpdate i PhotoCard.developed s).
Proof.
  intros Hs <-.
  pose proof (develop_commutes_with_caption (id staged) (id staged) text s)
    as Hc.
  split; [| split; [| split; [| exact Hc]]].
  - unfold handlePhotoUpdate_from. rewrite Hs, String.eqb_refl. reflexivity.
  - rewrite <- Hc. unfold handlePhotoUpdate_from.
    rewrite handlePhotoUpdate_photos, Hs, String.eqb_refl. reflexivity.
  - rewrite updateCaption_handlePhotoUpdate.
    rewrite !handlePhotoUpdate_stagedPhoto, Hs, String.eqb_refl.
    cbn [spread id override PhotoCard.developed Partial.id].
    rewrite String.eqb_refl. reflexivity.
Qed.

Lemma develop_after_unrendered_caption_witness :
  stagedPhoto
    (handlePhotoUpdate_from (stagedPhoto staging) "a" PhotoCard.developed
       (updateCaption "a" "Golden hour smiles" staging))
  = Some {| id := "a";
            imageData := imageData photo_a;
            caption := "";
            dateString := dateString photo_a;
            timestamp := timestamp photo_a;
            isDeveloping := false;
            isStaged := true;
            position := position photo_a;
            rotation := rotation photo_a |}
  /\ stagedPhoto
       (updateCaption "a" "Golden hour smiles"
          (handlePhotoUpdate "a" PhotoCard.developed staging))
     = Some {| id := "a";
               imageData := imageData photo_a;
               caption := "Golden hour smiles";
               dateString := dateString photo_a;
               timestamp := timestamp photo_a;
               isDeveloping := false;
               isStaged := true;
               position := position photo_a;
               rotation := rotation photo_a |}.
Proof.
  destruct (develop_after_unrendered_caption "a" "Golden hour smiles"
              staging photo_a eq_refl eq_refl) as (H1 & _ & H2 & _).
  split; [exact H1 | exact H2].
Defined.

(** ** The ids of the store *)










(** X13.  When the id is not held by the staged slot and by the wall at once
    (as with distinct ids), [delete(id)] removes exactly the records with
    that id from the store as a whole and keeps the others in order. *)
Theorem handlePhotoDelete_filters_store (i : string) (s : AppState) :
  holds i (slot s) && holds i (photos s) = false ->
  records (handlePhotoDelete i s)
  = filter (fun p => negb (String.eqb (id p) i)) (records s).
Proof.
  intros H. unfold records. rewrite filter_app.
  destruct (holds i (slot s)) eqn:Hslot.
  - cbn [andb] in H. rewrite holds_slot in Hslot.
    destruct (stagedPhoto s) as [staged|] eqn:Hs; [| discriminate].
    rewrite (handlePhotoDelete_staged i s staged Hs
               (proj1 (String.eqb_eq _ _) Hslot)).
    unfold slot. cbn [setStagedPhoto stagedPhoto photos]. rewrite Hs.
    cbn [filter]. rewrite Hslot. cbn [negb app].
    symmetry. apply forallb_filter_id. apply forallb_forall.
    intros p Hp. apply (proj2 (other_true i p)).
    exact (proj1 (holds_false _ _) H p Hp).
  - rewrite (handlePhotoDelete_placed i s Hslot).
    unfold slot in *. cbn [setPhotos stagedPhoto photos]. f_equal.
    symmetry. apply forallb_filter_id. apply forallb_forall.
    intros p Hp. apply (proj2 (other_true i p)).
    exact (proj1 (holds_false _ _) Hslot p Hp).
Qed.

Lemma handlePhotoDelete_filters_store_witness :
  records (handlePhotoDelete "a" staging)
  = filter (fun p => negb (String.eqb (id p) "a")) (records staging).
Proof.
  exact (handlePhotoDelete_filters_store "a" staging eq_refl).
Defined.


(** ** What never changes in a photo *)



Lemma issued_patch_keeps_shot (i : string) (updates : Partial.t)
  (p : PhotoData) :
  issued (Card (onUpdate i updates)) ->
  same_shot p (spread p updates)
  /\ position (spread p updates) = position p
  /\ (isDeveloping p = false -> isDeveloping (spread p updates) = false).
Proof.
  intros [-> | [text ->]]; repeat split; auto.
Qed.



(** X15.  The stored position of a photo on the wall is set when it is
    placed and never changes afterwards: after any event of a session a wall
    photo has the position it had before, or it is the staged photo just
    released at the release point.  Dragging a wall photo sends nothing. *)
Theorem placed_position_fixed (e : Event) (s : AppState) (p' : PhotoData) :
  issued e -> In p' (photos (step e s)) ->
  ((exists p,
      In p (photos s) /\ id p = id p' /\ position p = position p')
   \/ (exists staged i point,
         e = Card (onDragRelease i point)
         /\ stagedPhoto s = Some staged /\ id staged = i
         /\ id p' = i /\ position p' = point /\ isStaged p' = false))
  /\ (forall hasDragRelease rect,
        isStaged p' = false ->
        PhotoCard.handleDragEnd p' hasDragRelease rect = None).
Proof.
  intros Hi Hin. split.
  2:{ intros hasDR rect Hst. unfold PhotoCard.handleDragEnd.
      rewrite Hst. reflexivity. }
  assert (Hkeep : In p' (photos s) ->
                  exists p, In p (photos s) /\ id p = id p'
                            /\ position p = position p').
  { intros H. exists p'. auto. }
  assert (Hupd : forall i u,
             issued (Card (onUpdate i u)) ->
             In p' (photos (handlePhotoUpdate i u s)) ->
             exists p, In p (photos s) /\ id p = id p'
                       /\ position p = position p').
  { intros i u Hiu H. rewrite handlePhotoUpdate_photos in H.
    apply in_map_iff in H. destruct H as [p [<- Hp]].
    exists p. split; [exact Hp |].
    destruct (String.eqb (id p) i); [| auto].
    destruct (issued_patch_keeps_shot i u p Hiu) as ([H1 _] & H2 & _).
    split; [exact H1 | symmetry; exact H2]. }
  destruct e as [granted | env | pid text | [i u | i | i pt]];
    cbn [step dispatch] in Hin.
  - left. apply Hkeep. destruct granted; exact Hin.
  - left. apply Hkeep. rewrite takePhoto_photos in Hin. exact Hin.
  - left. rewrite updateCaption_handlePhotoUpdate in Hin.
    apply (Hupd pid (PhotoCard.captioned text)); [| exact Hin].
    right. exists text. reflexivity.
  - left. apply (Hupd i u Hi Hin).
  - left. apply Hkeep. unfold handlePhotoDelete in Hin.
    destruct (stagedPhoto s) as [staged|];
      [destruct (String.eqb (id staged) i) |];
      cbn [setStagedPhoto setPhotos photos] in Hin; auto;
      apply filter_In in Hin; tauto.
  - unfold handleDragRelease in Hin.
    destruct (stagedPhoto s) as [staged|] eqn:Hs;
      [destruct (String.eqb_spec (id staged) i) as [E | _] |];
      cbn [setStagedPhoto setPhotos photos] in Hin;
      try (left; apply Hkeep; exact Hin).
    apply in_app_iff in Hin. destruct Hin as [Hin | [<- | []]].
    + left. apply Hkeep, Hin.
    + right. exists staged, i, pt. repeat split; auto.
Qed.

Lemma placed_position_fixed_witness :
  (exists p,
     In p (photos staging)
     /\ id p = id photo_b /\ position p = position photo_b)
  \/ (exists staged i point,
        Card (onUpdate "a" PhotoCard.developed)
        = Card (onDragRelease i point)
        /\ stagedPhoto staging = Some staged /\ id staged = i
        /\ id photo_b = i /\ position photo_b = point
        /\ isStaged photo_b = false).
Proof.
  apply (placed_position_fixed (Card (onUpdate "a" PhotoCard.developed))
           staging photo_b).
  - left. reflexivity.
  - left. reflexivity.
Defined.

(** ** The caption editor of a card *)

Lemma caption_after_update (i text : string) (s : AppState)
  (p' : PhotoData) :
  In p' (records (handlePhotoUpdate i (PhotoCard.captioned text) s)) ->
  id p' = i -> caption p' = text.
Proof.
  intros Hin Hid. apply In_records_handlePhotoUpdate in Hin.
  destruct Hin as [p [_ ->]].
  destruct (String.eqb_spec (id p) i) as [_ | Hne];
    [reflexivity | contradiction].
Qed.

(** X16.  In the caption editor, Enter closes the editor and sets the
    caption of every record with the card's id to the text of the editor;
    Escape closes the editor, sends nothing and puts the photo's caption
    back into the editor; any other key changes nothing and sends
    nothing. *)
Theorem editor_keys (key : string) (photo : PhotoData) (st : Card.State)
  (s : AppState) :
  (key = "Enter" ->
   exists call,
     Card.onKeyDown key photo st = (Card.setIsEditing false st, Some call)
     /\ forall p', In p' (records (dispatch call s)) ->
          id p' = id photo -> caption p' = Card.editText st)
  /\ (key = "Escape" ->
      Card.onKeyDown key photo st
      = (Card.setIsEditing false (Card.setEditText (caption photo) st),
         None))
  /\ (key <> "Enter" -> key <> "Escape" ->
      Card.onKeyDown key photo st = (st, None)).
Proof.
  split; [| split].
  - intros ->. eexists. split; [reflexivity |].
    intros p' Hin Hid. cbn [snd Card.saveEdit dispatch] in Hin.
    exact (caption_after_update _ _ s p' Hin Hid).
  - intros ->. reflexivity.
  - intros H1 H2. unfold Card.onKeyDown.
    rewrite (proj2 (String.eqb_neq _ _) H1).
    rewrite (proj2 (String.eqb_neq _ _) H2). reflexivity.
Qed.

Lemma editor_keys_witness :
  exists call,
    Card.onKeyDown "Enter" photo_b
      (Card.setEditText "Sunday light" (Card.mount photo_b))
    = (Card.setIsEditing false
         (Card.setEditText "Sunday light" (Card.mount photo_b)), Some call)
    /\ forall p', In p' (records (dispatch call staging)) ->
         id p' = id photo_b -> caption p' = "Sunday light".
Proof.
  exact (proj1 (editor_keys "Enter" photo_b
                  (Card.setEditText "Sunday light" (Card.mount photo_b))
                  staging) eq_refl).
Defined.

(** X17.  The text of the editor is the caption the card was mounted with:
    a caption that reaches the photo later (the card is re-rendered with the
    new caption, its state kept) is not loaded when the editor is opened,
    so saving without typing writes the caption of the mount back over it.
    Cancelling, or regenerating, brings the editor text up to date. *)
Theorem editor_text_from_mount (photo : PhotoData) (later : string)
  (s : AppState) :
  Card.editText (Card.setIsEditing true (Card.mount photo)) = caption photo
  /\ (forall p',
        In p' (records
                 (dispatch
                    (snd (Card.saveEdit (with_caption photo later)
                            (Card.setIsEditing true (Card.mount photo))))
                    s)) ->
        id p' = id photo -> caption p' = caption photo)
  /\ Card.editText
       (Card.cancelEdit (with_caption photo later)
          (Card.setIsEditing true (Card.mount photo))) = later
  /\ Card.editText
       (fst (Card.regenerate_resume photo later
               (Card.regenerate_start (Card.mount photo)))) = later.
Proof.
  split; [reflexivity | split; [| split; reflexivity]].
  intros p' Hin Hid. cbn [snd Card.saveEdit dispatch with_caption id] in Hin.
  exact (caption_after_update _ _ s p' Hin Hid).
Qed.

(** ** The delete button *)

(** X18.  A card shows its delete button only for a photo that is not
    flagged staged; in a state the session can reach, such a card is a card
    of the wall.  Unless the staged photo carries the same id, its delete
    leaves the staged slot as it is and removes every record with that id
    from the store. *)
Theorem delete_button_only_on_wall (s : AppState) (photo : PhotoData)
  (st : Card.State) (call : Call) :
  reachable_by issued s -> In photo (records s) ->
  Card.clickDelete photo st = Some call ->
  call = onDelete (id photo)
  /\ In photo (photos s)
  /\ (holds (id photo) (slot s) = false ->
      stagedPhoto (dispatch call s) = stagedPhoto s
      /\ holds (id photo) (records (dispatch call s)) = false).
Proof.
  intros Hr Hin Hclick. apply flags_agree_reachable in Hr.
  destruct Hr as [Hslot _].
  unfold Card.clickDelete, Card.toolbar in Hclick.
  destruct (isStaged photo) eqn:Hst; cbn [negb andb] in Hclick;
    [discriminate |].
  destruct (Card.isHovering st && negb (Card.isEditing st));
    [| discriminate].
  injection Hclick as <-.
  split; [reflexivity |]. split.
  - unfold records, slot in Hin. apply in_app_iff in Hin.
    destruct Hin as [Hin | Hin]; [| exact Hin].
    destruct (stagedPhoto s) as [staged|]; [| destruct Hin].
    destruct Hin as [<- | []].
    rewrite (Hslot staged eq_refl) in Hst. discriminate.
  - intros Hfree. cbn [dispatch].
    rewrite (handlePhotoDelete_placed _ s Hfree).
    split; [reflexivity |].
    unfold records, slot in *. cbn [setPhotos stagedPhoto photos].
    rewrite holds_app, Hfree. apply filter_other_absent.
Qed.

Lemma delete_button_only_on_wall_witness :
  In wall_photo (photos placed_once)
  /\ holds "a" (records (dispatch (onDelete "a") placed_once)) = false.
Proof.
  assert (Hr : reachable_by issued placed_once).
  { unfold placed_once, run. cbn [fold_left].
    repeat (apply reachable_step; [exact I |]).
    apply reachable_initial. }
  destruct (delete_button_only_on_wall placed_once wall_photo
              (Card.setIsHovering true (Card.mount wall_photo))
              (onDelete "a") Hr (or_introl eq_refl) eq_refl)
    as (_ & H1 & H2).
  split; [exact H1 | exact (proj2 (H2 eq_refl))].
Defined.

(** ** Captions in a row, captures in a row *)

(** X19.  Of two caption patches for the same id the later one wins: the
    state is the one the later patch alone gives, so a regenerated or edited
    caption replaces the earlier one everywhere the id lives. *)
Theorem updateCaption_last_wins (i first later : string) (s : AppState) :
  updateCaption i later (updateCaption i first s) = updateCaption i later s.
Proof.
  rewrite !updateCaption_handlePhotoUpdate.
  apply AppState_ext.
  - rewrite !handlePhotoUpdate_status. reflexivity.
  - rewrite !handlePhotoUpdate_photos, map_map. apply map_ext.
    intros p. destruct (String.eqb (id p) i) eqn:E.
    + cbn [spread id override PhotoCard.captioned Partial.id].
      rewrite E. reflexivity.
    + rewrite E. reflexivity.
  - rewrite !handlePhotoUpdate_stagedPhoto.
    destruct (stagedPhoto s) as [p|]; [| reflexivity].
    destruct (String.eqb (id p) i) eqn:E.
    + cbn [spread id override PhotoCard.captioned Partial.id].
      rewrite E. reflexivity.
    + rewrite E. reflexivity.
Qed.

(** X20.  While a photo is staged the shutter button is disabled; releasing
    the staged photo on the wall enables it again, and the next capture,
    with video, canvas and context at hand, goes through: it stages the new
    photo and leaves the wall, the released photo last, as it is. *)
Theorem release_frees_the_shutter (env : CaptureEnv) (s : AppState)
  (staged : PhotoData) (point : Position) (video : Video)
  (canvas : Canvas) :
  status s = CAMERA_READY -> stagedPhoto s = Some staged ->
  videoRef env = Some video -> canvasRef env = Some canvas ->
  getContext canvas = true ->
  shutterDisabled s = true
  /\ takePhoto env s = s
  /\ shutterDisabled (handleDragRelease (id staged) point s) = false
  /\ stagedPhoto (takePhoto env (handleDragRelease (id staged) point s))
     = Some (newPhoto env (toDataURL canvas (cropRegion64 video)))
  /\ photos (takePhoto env (handleDragRelease (id staged) point s))
     = photos (handleDragRelease (id staged) point s)
  /\ exists placed,
       photos (handleDragRelease (id staged) point s)
       = (photos s ++ [placed])%list
       /\ id placed = id staged /\ position placed = point
       /\ isStaged placed = false.
Proof.
  intros Hst Hs Hv Hc Hctx.
  split; [unfold shutterDisabled; rewrite Hs; reflexivity |].
  split; [apply takePhoto_rejected; rewrite Hs; discriminate |].
  assert (E : handleDragRelease (id staged) point s
              = setStagedPhoto (fun _ => None)
                  (setPhotos
                     (fun prev =>
                        (prev ++ [ {| id := id staged;
                                      imageData := imageData staged;
                                      caption := caption staged;
                                      dateString := dateString staged;
                                      timestamp := timestamp staged;
                                      isDeveloping := isDeveloping staged;
                                      isStaged := false;
                                      position := point;
                                      rotation := rotation staged |} ])%list)
                     s)).
  { unfold handleDragRelease. rewrite Hs, String.eqb_refl. reflexivity. }
  rewrite E. split; [reflexivity |]. split; [| split].
  - unfold takePhoto. cbn [setStagedPhoto setPhotos status stagedPhoto].
    rewrite Hst, Hv, Hc, Hctx. reflexivity.
  - apply takePhoto_photos.
  - eexists. split; [reflexivity |]. repeat split.
Qed.

Lemma release_frees_the_shutter_witness :
  shutterDisabled staging = true
  /\ takePhoto sample_env staging = staging
  /\ shutterDisabled (handleDragRelease (id photo_a) wall_point staging)
     = false
  /\ stagedPhoto
       (takePhoto sample_env
          (handleDragRelease (id photo_a) wall_point staging))
     = Some (newPhoto sample_env
               (toDataURL sample_canvas (cropRegion64 hd_frame))).
Proof.
  destruct (release_frees_the_shutter sample_env staging photo_a wall_point
              hd_frame sample_canvas eq_refl eq_refl eq_refl eq_refl
              eq_refl) as (H1 & H2 & H3 & H4 & _).
  repeat split; assumption.
Defined.

Lemma editor_text_from_mount_witness :
  In wall_photo
    (records
       (dispatch
          (snd (Card.saveEdit
                  (with_caption wall_photo "Golden hour smiles")
                  (Card.setIsEditing true (Card.mount wall_photo))))
          (updateCaption "a" "Golden hour smiles" placed_once)))
  /\ caption wall_photo = "".
Proof.
  assert (Hin : In wall_photo
                  (records
                     (dispatch
                        (snd (Card.saveEdit
                                (with_caption wall_photo "Golden hour smiles")
                                (Card.setIsEditing true
                                   (Card.mount wall_photo))))
                        (updateCaption "a" "Golden hour smiles"
                           placed_once)))).
  { left. reflexivity. }
  split; [exact Hin |].
  exact (proj1 (proj2 (editor_text_from_mount wall_photo
                         "Golden hour smiles"
                         (updateCaption "a" "Golden hour smiles"
                            placed_once)))
           wall_photo Hin eq_refl).
Defined.

(** ** The binary64 crop inside the frame *)

(** X21.  As the code computes it, in binary64, the crop of a frame with
    positive height and sizes below [2 ^ 32] lies inside the frame: offsets
    and sizes are not negative and the crop ends within the width and the
    height; for a positive width the crop has positive width and height. *)
Theorem cropRegion64_inside_frame (video : Video) :
  (0 < videoHeight video)%N ->
  (videoWidth video < 2 ^ 32)%N -> (videoHeight video < 2 ^ 32)%N ->
  0 <= sourceX (cropRegion64 video)
  /\ 0 <= sourceY (cropRegion64 video)
  /\ 0 <= sourceWidth (cropRegion64 video)
  /\ 0 <= sourceHeight (cropRegion64 video)
  /\ sourceX (cropRegion64 video) + sourceWidth (cropRegion64 video)
     <= num (videoWidth video)
  /\ sourceY (cropRegion64 video) + sourceHeight (cropRegion64 video)
     <= num (videoHeight video)
  /\ ((0 < videoWidth video)%N ->
      0 < sourceWidth (cropRegion64 video)
      /\ 0 < sourceHeight (cropRegion64 video)).
Proof.
  intros Hh Hw32 Hh32.
  pose proof (num_pos _ Hh) as Hpos.
  pose proof (num_nonneg (videoWidth video)) as Hw0.
  pose proof (num_below _ Hh32) as Hhb.
  pose proof (ratio_le_three_quarters (videoWidth video) (videoHeight video)
                Hh) as Hle.
  destruct (Qlt_le_dec (3 # 4)
              (num (videoWidth video) / num (videoHeight video)))
    as [Hgt | Hlt].
  - destruct (cropRegion64_wide video Hh Hw32 Hh32 Hgt)
      as (H1 & H2 & H3 & H4).
    assert (Hz : 3 * num (videoHeight video) < 4 * num (videoWidth video)).
    { apply num_scaled_lt. apply N.nle_gt. intros Hn. apply Hle in Hn.
      exact (Qlt_not_le _ _ Hgt Hn). }
    rewrite H1, H2, H3, H4. unfold Qdiv.
    setoid_replace (/ 2) with (1 # 2) by reflexivity.
    repeat split; lra.
  - destruct (cropRegion64_tall video Hh Hw32 Hh32 Hlt)
      as (H1 & H2 & H3 & H4).
    pose proof (proj1 Hle Hlt) as Hn.
    set (W := num (videoWidth video)) in *.
    set (H := num (videoHeight video)) in *.
    assert (Eq : W / (3 # 4) == W * (4 # 3)) by (unfold Qdiv; reflexivity).
    assert (Hq0 : 0 <= W / (3 # 4)) by (rewrite Eq; lra).
    destruct (round64_error _ Hq0) as [R1 R2].
    set (sh := round64 (W / (3 # 4))) in *.
    rewrite Eq in R1, R2. unfold eps64 in R1, R2.
    assert (Hsh : sh <= H).
    { destruct (N.eq_dec (4 * videoWidth video) (3 * videoHeight video))
        as [Heq | Hne].
      - assert (E : W / (3 # 4) == inject_Z (Z.of_N (videoHeight video))).
        { rewrite Eq.
          assert (E4 : 4 * W == 3 * H).
          { unfold W, H, num, Qeq, Qmult, inject_Z. cbn [Qnum Qden]. lia. }
          change (inject_Z (Z.of_N (videoHeight video))) with H. lra. }
        unfold sh. rewrite E.
        change (2 ^ 32)%N with 4294967296%N in Hh32.
        assert (H53 : (2 ^ 53 = 9007199254740992)%Z) by reflexivity.
        destruct (round64_halves (Z.of_N (videoHeight video))) as [Q1 _];
          [lia.. |].
        rewrite Q1. apply Qle_refl.
      - assert (Hz : 4 * W + 1 <= 3 * H).
        { unfold W, H, num, Qle, Qmult, Qplus, inject_Z. cbn [Qnum Qden].
          lia. }
        lra. }
    assert (Hd0 : 0 <= H - sh) by lra.
    destruct (round64_error _ Hd0) as [D1 D2].
    set (d := round64 (H - sh)) in *. unfold eps64 in D1, D2.
    assert (Hd2 : 0 <= d / 2).
    { unfold Qdiv. setoid_replace (/ 2) with (1 # 2) by reflexivity. lra. }
    destruct (round64_error _ Hd2) as [Y1 Y2].
    rewrite H1, H2, H3, H4.
    fold sh. fold d.
    set (sy := round64 (d / 2)) in *.
    assert (Ed : d / 2 == d * (1 # 2)) by (unfold Qdiv; reflexivity).
    rewrite Ed in Y1, Y2. unfold eps64 in Y1, Y2.
    split; [lra |]. split; [lra |]. split; [lra |]. split; [lra |].
    split; [lra |]. split; [lra |].
    intros Hw. apply num_pos in Hw. fold W in Hw. split; lra.
Qed.

Lemma cropRegion64_inside_frame_witness :
  0 <= sourceY (cropRegion64 narrow_frame)
  /\ sourceY (cropRegion64 narrow_frame)
     + sourceHeight (cropRegion64 narrow_frame)
     <= num (videoHeight narrow_frame).
Proof.
  destruct (cropRegion64_inside_frame narrow_frame eq_refl eq_refl eq_refl)
    as (_ & H1 & _ & _ & _ & H2 & _).
  split; assumption.
Defined.
